(** * SLUGS inter-processor communication over SPI (clib/interProcComm.c)

    A shallow embedding of the master-side sender [spiSend] and of the
    slave-side receive interrupt [_SPI1Interrupt], together with the
    three-slot receive pool they share with the application code.

    Machine integers are kept as [Z] with their wrap-around written out:
    [unsigned int] is 16 bits wide on the dsPIC33F this file is compiled for
    (it includes p33fxxxx.h), [unsigned char] is 8 bits wide. *)

From stdpp Require Import base numbers list.

Local Open Scope Z_scope.

(** ** Machine words *)

Definition uint16 (z : Z) : Z := z mod 65536.
Definition uint8 (z : Z) : Z := z mod 256.

(** ** The constants of apDefinitions.h

    The header is not part of the sources at hand, so its three macros are
    parameters of the development. *)

Class apDefinitions := {
  SPIBUFSIZE : Z;
  BEGINSPI : Z;
  ENDSPI : Z
}.

(** What any usable configuration satisfies: the rows of [spiRxBuf] are not
    empty and the pool fits the 16-bit data space, the two sentinels are
    16-bit words, and [ENDSPI] cannot be mistaken for an index into a frame. *)
Class apDefinitions_ok (D : apDefinitions) := {
  SPIBUFSIZE_pos : 1 ≤ SPIBUFSIZE;
  SPIBUFSIZE_fits : 3 * SPIBUFSIZE < 32768;
  BEGINSPI_word : 0 ≤ BEGINSPI < 65536;
  ENDSPI_word : 0 ≤ ENDSPI < 65536;
  ENDSPI_no_index : SPIBUFSIZE ≤ ENDSPI
}.

(** The specification calls the same constant [BUFSIZE]: its frame slot of
    [BUFSIZE] words is a row of [spiRxBuf], which has [SPIBUFSIZE] words. *)
Definition BUFSIZE {D : apDefinitions} : Z := SPIBUFSIZE.

(** ** The slave's state

    The globals [spiRxBuf], [currentBuffer], [lastBuffer], the handler's
    static [spiBufIdx], and the part of the SPI1 peripheral the code touches:
    the word written to SPI1BUF for the next transfer, the word last
    received, and the interrupt flag IFS0.SPI1IF. *)

Record slave := mkSlave {
  spiRxBuf : list (list Z);
  currentBuffer : Z;
  lastBuffer : Z;
  spiBufIdx : Z;
  SPI1TX : Z;
  SPI1RX : Z;
  SPI1IF : bool
}.

Definition set_spiRxBuf (p : list (list Z)) (s : slave) : slave :=
  mkSlave p (currentBuffer s) (lastBuffer s) (spiBufIdx s) (SPI1TX s) (SPI1RX s) (SPI1IF s).
Definition set_currentBuffer (c : Z) (s : slave) : slave :=
  mkSlave (spiRxBuf s) c (lastBuffer s) (spiBufIdx s) (SPI1TX s) (SPI1RX s) (SPI1IF s).
Definition set_lastBuffer (l : Z) (s : slave) : slave :=
  mkSlave (spiRxBuf s) (currentBuffer s) l (spiBufIdx s) (SPI1TX s) (SPI1RX s) (SPI1IF s).
Definition set_spiBufIdx (i : Z) (s : slave) : slave :=
  mkSlave (spiRxBuf s) (currentBuffer s) (lastBuffer s) i (SPI1TX s) (SPI1RX s) (SPI1IF s).
Definition set_SPI1TX (w : Z) (s : slave) : slave :=
  mkSlave (spiRxBuf s) (currentBuffer s) (lastBuffer s) (spiBufIdx s) w (SPI1RX s) (SPI1IF s).
Definition set_SPI1RX (w : Z) (s : slave) : slave :=
  mkSlave (spiRxBuf s) (currentBuffer s) (lastBuffer s) (spiBufIdx s) (SPI1TX s) w (SPI1IF s).
Definition set_SPI1IF (b : bool) (s : slave) : slave :=
  mkSlave (spiRxBuf s) (currentBuffer s) (lastBuffer s) (spiBufIdx s) (SPI1TX s) (SPI1RX s) b.

(** The row of the pool a buffer index designates, if it designates one. *)
Definition slot (r : Z) (s : slave) : option (list Z) :=
  if r <? 0 then None else spiRxBuf s !! Z.to_nat r.

(** ** Handler code as a state monad, over two memories

    The handler is one program, written over the memory it stores to, and it
    is run on two memories. On the 16-bit target the store is carried out
    wherever its address falls ([store_flat] below) and the handler goes on.
    Under C's own rule a subscript outside its row is undefined: there
    [store_row] ends the run, and the result records which row and offset
    were addressed and the state the machine was in. *)

Inductive fault := RxBufOutOfBounds (row off : Z).

Inductive res (A : Type) :=
| Ok (a : A) (s : slave)
| Fault (f : fault) (s : slave).
Arguments Ok {A} a s.
Arguments Fault {A} f s.

Definition M (A : Type) : Type := slave → res A.

Definition ret {A} (a : A) : M A := λ s, Ok a s.
Definition bind {A B} (m : M A) (k : A → M B) : M B :=
  λ s, match m s with
       | Ok a s' => k a s'
       | Fault f s' => Fault f s'
       end.

#[global] Instance M_ret : MRet M := @ret.
#[global] Instance M_bind : MBind M := λ A B k m, bind m k.

Definition get {A} (f : slave → A) : M A := λ s, Ok (f s) s.
Definition put (f : slave → slave) : M unit := λ s, Ok tt (f s).

(** The state a result carries, whether the run ended well or not. *)
Definition state_of {A} (r : res A) : slave :=
  match r with Ok _ s => s | Fault _ s => s end.

(** [WriteSPI1] and [ReadSPI1] of the peripheral library, on the slave. *)
Definition WriteSPI1 (w : Z) : M unit := put (set_SPI1TX w).
Definition ReadSPI1 : M Z := get SPI1RX.

Section Receiver.
Context {D : apDefinitions}.

(** Subscripts inside a row of [spiRxBuf[3][SPIBUFSIZE]]. *)
Definition in_bounds (row off : Z) : bool :=
  (0 <=? row) && (row <? 3) && (0 <=? off) && (off <? SPIBUFSIZE).

(** [spiRxBuf[row][off] = w] under C's rule: carried out when the subscripts
    are inside the row, the end of the run when they are not. *)
Definition store_row (row off w : Z) : M unit :=
  λ s, if in_bounds row off
       then Ok tt (set_spiRxBuf
                     (alter (λ r, <[Z.to_nat off := w]> r) (Z.to_nat row) (spiRxBuf s)) s)
       else Fault (RxBufOutOfBounds row off) s.

(** The word the address of [spiRxBuf[row][off]] falls on, counted from
    [spiRxBuf[0][0]]. The rows lie one after the other, a word takes two
    bytes and data addresses are 16 bits wide, so the byte offset
    [2 * (row * SPIBUFSIZE + off)] wraps modulo 65536. *)
Definition flat_index (row off : Z) : Z :=
  ((2 * (row * SPIBUFSIZE + off)) mod 65536) / 2.

(** [spiRxBuf[row][off] = w] on the target: nothing is checked. The word is
    written where its address falls: on a word of the pool, which need not
    be in the row named, or outside [spiRxBuf], in memory this model does not
    hold, and then the pool is as it was. *)
Definition store_flat (row off w : Z) : M unit :=
  λ s, let i := flat_index row off in
       if i <? 3 * SPIBUFSIZE
       then Ok tt (set_spiRxBuf
                     (alter (λ r, <[Z.to_nat (i mod SPIBUFSIZE) := w]> r)
                            (Z.to_nat (i / SPIBUFSIZE)) (spiRxBuf s)) s)
       else Ok tt s.

(** [currentBuffer > 2 ? 0 : currentBuffer + 1], stored in an
    [unsigned char]. *)
Definition next_buffer (c : Z) : Z :=
  if c >? 2 then 0 else uint8 (c + 1).

(** The interrupt service routine, statement by statement, over the memory
    [store] it writes to. In
    [spiRxBuf[currentBuffer][(spiBufIdx++) - 2] = dataRead] the subscript
    is computed from the old cursor in [unsigned int] arithmetic; the store
    is placed before the write-back of the incremented cursor (C leaves the
    order of the two open). *)
Definition _SPI1Interrupt (store : Z → Z → Z → M unit) : M unit :=
  idx ← get spiBufIdx;
  (if idx <? SPIBUFSIZE then WriteSPI1 idx
   else if idx =? SPIBUFSIZE then WriteSPI1 ENDSPI
   else WriteSPI1 0);;
  dataRead ← ReadSPI1;
  (if dataRead =? BEGINSPI then
     i ← get spiBufIdx;
     put (set_spiBufIdx (uint16 (i + 1)))
   else
     cur ← get currentBuffer;
     i ← get spiBufIdx;
     store cur (uint16 (i - 2)) dataRead;;
     put (set_spiBufIdx (uint16 (i + 1)));;
     i' ← get spiBufIdx;
     if i' >? SPIBUFSIZE then
       put (set_spiBufIdx 1);;
       c ← get currentBuffer;
       put (set_lastBuffer c);;
       c' ← get currentBuffer;
       put (set_currentBuffer (next_buffer c'))
     else mret tt);;
  put (set_SPI1IF false).

(** The word lines 134-148 select for a cursor value, as a function of
    its own; [_SPI1Interrupt] above does not use it. *)
Definition next_word (idx : Z) : Z :=
  if idx <? SPIBUFSIZE then idx
  else if idx =? SPIBUFSIZE then ENDSPI
  else 0.

(** The word the handler hands to the peripheral when entered in [s]. *)
Definition transmitted (s : slave) : Z :=
  SPI1TX (state_of (_SPI1Interrupt store_row s)).

(** The state at reset: the file-scope initialisers (a static array starts
    zeroed), then [spiSlaveInit], which loads SPI1BUF with 0 and clears the
    interrupt flag. The register settings of [spiSlaveInit] configure the
    transport and have no counterpart here. *)
Definition power_on : slave :=
  mkSlave (replicate 3 (replicate (Z.to_nat SPIBUFSIZE) 0)) 0 2 1 0 0 false.

Definition spiSlaveInit (s : slave) : slave :=
  set_SPI1IF false (set_SPI1TX 0 s).

Definition slave_init : slave := spiSlaveInit power_on.

(** Modelled from the spec: the transport, that is the SPI1 peripheral behind
    [WriteSPI1], [ReadSPI1] and [DataRdySPI1] of spi.h, is outside the
    sources. One bus round trip seen from the slave: both sides shift at the
    same time, so the master receives the word the slave had written for
    this round trip beforehand (the handler's [WriteSPI1] is for the
    following one, and [spiSlaveInit] writes the very first), the slave
    receives the master's word, and the interrupt handler then runs once.
    [bus_event] is that round trip under C's rule, where a subscript outside
    its row ends the run; [target_event] is the round trip on the target. *)
Definition bus_event (w : Z) (s : slave) : Z * res unit :=
  (SPI1TX s, _SPI1Interrupt store_row (set_SPI1IF true (set_SPI1RX w s))).

Definition target_event (w : Z) (s : slave) : Z * slave :=
  (SPI1TX s, state_of (_SPI1Interrupt store_flat (set_SPI1IF true (set_SPI1RX w s)))).

(** A handler invocation completes a frame when it takes the branch of
    line 162: the word is not [BEGINSPI] and the incremented cursor
    exceeds [SPIBUFSIZE]. *)
Definition completes (s : slave) (w : Z) : bool :=
  negb (w =? BEGINSPI) && (uint16 (spiBufIdx s + 1) >? SPIBUFSIZE).

(** Driving the handler with a sequence of received words under C's rule;
    the first subscript outside its row stops the run. *)
Fixpoint drive (ws : list Z) (st : res unit) : res unit :=
  match ws, st with
  | w :: ws', Ok _ s => drive ws' (snd (bus_event w s))
  | _, _ => st
  end.

(** Number of frames completed along such a run. *)
Fixpoint completions (ws : list Z) (st : res unit) : nat :=
  match ws, st with
  | w :: ws', Ok _ s =>
      ((if completes s w then 1 else 0) + completions ws' (snd (bus_event w s)))%nat
  | _, _ => 0%nat
  end.

(** Driving the handler on the target: every word is handled. *)
Fixpoint run (ws : list Z) (s : slave) : slave :=
  match ws with
  | [] => s
  | w :: ws' => run ws' (snd (target_event w s))
  end.



(** States the handler can be entered in while every subscript has stayed
    inside its row. *)
Inductive reachable : slave → Prop :=
| reachable_init : reachable slave_init
| reachable_event s w s' :
    reachable s → snd (bus_event w s) = Ok tt s' → reachable s'.

(** States the handler can be entered in on the target. *)
Inductive entered : slave → Prop :=
| entered_init : entered slave_init
| entered_event s w : entered s → entered (snd (target_event w s)).

End Receiver.

(** ** The master-side sender *)

(** Modelled from the spec: the transport as the sender uses it.
    [WriteSPI1 (w)], the wait on [DataRdySPI1 ()] and [ReadSPI1 ()] make one
    blocking round trip, which hands back the word received and the new
    state of the bus, or never completes. *)
Class Bus (B : Type) := exchange : Z → B → option (Z * B).

(** Why a call did not return: it indexed [data2Send] outside the frame it
    was given, or it is still waiting for the bus. *)
Inductive stop := FrameOutOfBounds (i : Z) | NoResponse.

(** A call's outcome, with the round trips it made as pairs of the word
    transmitted and the word received. *)
Inductive outcome (B : Type) :=
| Returned (tr : list (Z * Z)) (b : B)
| Stopped (why : stop) (tr : list (Z * Z)) (b : B)
| OutOfFuel.
Arguments Returned {B} tr b.
Arguments Stopped {B} why tr b.
Arguments OutOfFuel {B}.

Definition logged {B} (e : Z * Z) (o : outcome B) : outcome B :=
  match o with
  | Returned tr b => Returned (e :: tr) b
  | Stopped why tr b => Stopped why (e :: tr) b
  | OutOfFuel => OutOfFuel
  end.

(** [data2Send[i]] for an [unsigned int] index into a frame of bytes. *)
Definition data_at (data2Send : list Z) (i : Z) : option Z :=
  if i <? 0 then None else data2Send !! Z.to_nat i.

Definition sent (tr : list (Z * Z)) : list Z := tr.*1.
Definition received (tr : list (Z * Z)) : list Z := tr.*2.

Section Sender.
Context {D : apDefinitions} {B : Type} {bus : Bus B}.

(** The [while (rcvdIdx != ENDSPI)] loop. *)
Fixpoint spiSend_loop (fuel : nat) (data2Send : list Z) (rcvdIdx : Z) (b : B)
  : outcome B :=
  match fuel with
  | O => OutOfFuel
  | S fuel' =>
      if rcvdIdx =? ENDSPI then Returned [] b
      else match data_at data2Send rcvdIdx with
           | None => Stopped (FrameOutOfBounds rcvdIdx) [] b
           | Some w =>
               match exchange w b with
               | None => Stopped NoResponse [] b
               | Some (r, b') => logged (w, r) (spiSend_loop fuel' data2Send r b')
               end
           end
  end.

Definition spiSend (fuel : nat) (data2Send : list Z) (b : B) : outcome B :=
  match exchange BEGINSPI b with
  | None => Stopped NoResponse [] b
  | Some (r, b') => logged (BEGINSPI, r) (spiSend_loop fuel data2Send r b')
  end.

(** The sender as the specification words it: transmit [BEGIN] and read the
    response as the requested index; while the requested index is not
    [END], transmit the frame's word at that index and read the next
    response; return when the requested index is [END]. *)
Inductive sender_loop_spec (frame : list Z) : Z → B → list (Z * Z) → B → Prop :=
| sender_return b :
    sender_loop_spec frame ENDSPI b [] b
| sender_next requestedIndex w r b b' tr b'' :
    requestedIndex ≠ ENDSPI →
    data_at frame requestedIndex = Some w →
    exchange w b = Some (r, b') →
    sender_loop_spec frame r b' tr b'' →
    sender_loop_spec frame requestedIndex b ((w, r) :: tr) b''.

Inductive sender_spec (frame : list Z) : B → list (Z * Z) → B → Prop :=
| sender_begin b r b' tr b'' :
    exchange BEGINSPI b = Some (r, b') →
    sender_loop_spec frame r b' tr b'' →
    sender_spec frame b ((BEGINSPI, r) :: tr) b''.

End Sender.

(** The slave on the other end of the bus under C's rule: a round trip is a
    [bus_event]; nothing is said about a slave after a subscript outside its
    row. *)
#[global] Instance slave_bus {D : apDefinitions} : Bus (res unit) :=
  λ w st, match st with
          | Ok _ s => Some (bus_event w s)
          | Fault _ _ => None
          end.

(** The slave on the other end of the bus on the target: it answers every
    round trip. *)
#[global] Instance target_bus {D : apDefinitions} : Bus slave :=
  λ w s, Some (target_event w s).

(** A peer that answers from a script, one word per round trip. *)
#[global] Instance script_bus : Bus (list Z) :=
  λ _ rs, match rs with
          | r :: rs' => Some (r, rs')
          | [] => None
          end.

(** A configuration to run examples on: four words to a slot. *)
Definition defs4 : apDefinitions :=
  {| SPIBUFSIZE := 4; BEGINSPI := 65535; ENDSPI := 48879 |}.

(** A frame as the sender is given one: bytes, none of them a sentinel. *)
Definition payload {D : apDefinitions} (frame : list Z) : Prop :=
  Forall (λ x, 0 ≤ x < 256 ∧ x ≠ BEGINSPI ∧ x ≠ ENDSPI) frame.

(** The slave after [BEGINSPI] and the first [k] words of [frame], while the
    first frame is still being received. *)
Definition receiving {D : apDefinitions} (frame : list Z) (k : nat) (s : slave) : Prop :=
  reachable s ∧
  currentBuffer s = 0 ∧ lastBuffer s = 2 ∧
  spiBufIdx s = Z.of_nat k + 2 ∧ SPI1TX s = Z.of_nat k + 1 ∧
  spiRxBuf s =
    [take k frame ++ replicate (Z.to_nat SPIBUFSIZE - k) 0;
     replicate (Z.to_nat SPIBUFSIZE) 0; replicate (Z.to_nat SPIBUFSIZE) 0].

(** The slave once it has loaded [ENDSPI] for the sender: the first frame is
    published, the cursor is back at 1. *)
Definition published {D : apDefinitions} (frame : list Z) (s : slave) : Prop :=
  reachable s ∧
  currentBuffer s = 1 ∧ lastBuffer s = 0 ∧
  spiBufIdx s = 1 ∧ SPI1TX s = ENDSPI ∧
  slot (lastBuffer s) s = Some (take (Z.to_nat SPIBUFSIZE - 1) frame ++ [0]).

(** ** Further definitions *)

(** The pool as declared, [unsigned int spiRxBuf[3][SPIBUFSIZE]]: three rows
    of [SPIBUFSIZE] words. *)
Definition pool_shape {D : apDefinitions} (s : slave) : Prop :=
  length (spiRxBuf s) = 3%nat ∧
  Forall (λ row, length row = Z.to_nat SPIBUFSIZE) (spiRxBuf s).

(** Traffic in which [BEGINSPI] reaches the handler at cursor 1 only, the
    cursor at which [spiSend] on the other side starts a frame. *)
Fixpoint begin_at_cursor_1 {D : apDefinitions} (ws : list Z) (st : res unit) : bool :=
  match ws, st with
  | w :: ws', Ok _ s =>
      (if w =? BEGINSPI then spiBufIdx s =? 1 else true)
      && begin_at_cursor_1 ws' (snd (bus_event w s))
  | _, _ => true
  end.

(** The cursor is between 1 and [SPIBUFSIZE] and the last word of every row
    is still the initial 0. *)
Definition last_word_clear {D : apDefinitions} (s : slave) : Prop :=
  1 ≤ spiBufIdx s ≤ SPIBUFSIZE ∧
  Forall (λ row : list Z, row !! (Z.to_nat SPIBUFSIZE - 1)%nat = Some 0) (spiRxBuf s).

(** A peer that asks for the same index in every round trip and never sends
    [ENDSPI]. *)
Definition repeating_bus (i : Z) : Bus unit := λ _ _, Some (i, tt).

(** The smallest configuration: one word to a slot. *)
Definition defs1 : apDefinitions :=
  {| SPIBUFSIZE := 1; BEGINSPI := 65535; ENDSPI := 48879 |}.

(** * Properties *)

#[global] Instance defs4_ok : apDefinitions_ok defs4.
Proof. split; cbn; lia. Qed.

(** ** The handler in closed form *)

Section ReceiverFacts.
Context {D : apDefinitions}.

Lemma handler_cases s :
  _SPI1Interrupt store_row s =
    let idx := spiBufIdx s in
    let w := SPI1RX s in
    let cur := currentBuffer s in
    if w =? BEGINSPI then
      Ok tt (mkSlave (spiRxBuf s) cur (lastBuffer s) (uint16 (idx + 1))
               (next_word idx) w false)
    else if in_bounds cur (uint16 (idx - 2)) then
      let pool := alter (λ r, <[Z.to_nat (uint16 (idx - 2)) := w]> r)
                        (Z.to_nat cur) (spiRxBuf s) in
      if uint16 (idx + 1) >? SPIBUFSIZE then
        Ok tt (mkSlave pool (next_buffer cur) cur 1 (next_word idx) w false)
      else
        Ok tt (mkSlave pool cur (lastBuffer s) (uint16 (idx + 1)) (next_word idx) w false)
    else
      Fault (RxBufOutOfBounds cur (uint16 (idx - 2)))
        (mkSlave (spiRxBuf s) cur (lastBuffer s) idx (next_word idx) w (SPI1IF s)).
Proof.
  destruct s as [pool cur last idx tx rx fl].
  cbv beta iota zeta delta
    [_SPI1Interrupt next_word mbind M_bind bind mret M_ret ret get put
     WriteSPI1 ReadSPI1 store_row spiRxBuf currentBuffer lastBuffer spiBufIdx
     SPI1TX SPI1RX SPI1IF set_SPI1TX set_spiRxBuf set_spiBufIdx
     set_lastBuffer set_currentBuffer set_SPI1IF].
  destruct (idx <? SPIBUFSIZE); [|destruct (idx =? SPIBUFSIZE)];
    cbv beta iota;
    (destruct (rx =? BEGINSPI); [reflexivity|]);
    (destruct (in_bounds cur (uint16 (idx - 2))); [|reflexivity]);
    cbv beta iota;
    destruct (uint16 (idx + 1) >? SPIBUFSIZE); reflexivity.
Qed.

Lemma transmitted_next_word s : transmitted s = next_word (spiBufIdx s).
Proof.
  unfold transmitted. rewrite handler_cases. cbv zeta.
  repeat match goal with |- context [if ?c then _ else _] =>
    lazymatch c with
    | context [next_word] => fail
    | _ => destruct c
    end end; reflexivity.
Qed.

Lemma bus_event_cases w s :
  bus_event w s =
    (SPI1TX s,
     let idx := spiBufIdx s in
     let cur := currentBuffer s in
     if w =? BEGINSPI then
       Ok tt (mkSlave (spiRxBuf s) cur (lastBuffer s) (uint16 (idx + 1))
                (next_word idx) w false)
     else if in_bounds cur (uint16 (idx - 2)) then
       let pool := alter (λ r, <[Z.to_nat (uint16 (idx - 2)) := w]> r)
                         (Z.to_nat cur) (spiRxBuf s) in
       if uint16 (idx + 1) >? SPIBUFSIZE then
         Ok tt (mkSlave pool (next_buffer cur) cur 1 (next_word idx) w false)
       else
         Ok tt (mkSlave pool cur (lastBuffer s) (uint16 (idx + 1)) (next_word idx) w false)
     else
       Fault (RxBufOutOfBounds cur (uint16 (idx - 2)))
         (mkSlave (spiRxBuf s) cur (lastBuffer s) idx (next_word idx) w true)).
Proof. unfold bus_event. rewrite handler_cases. reflexivity. Qed.

(** A rotation never leaves the current buffer where it was. *)
Lemma next_buffer_moves c : next_buffer c ≠ c.
Proof.
  unfold next_buffer, uint8. destruct (Z.gtb_spec c 2); [lia|].
  destruct (Z.lt_ge_cases c 0).
  - pose proof (Z.mod_pos_bound (c + 1) 256). lia.
  - rewrite Z.mod_small; lia.
Qed.

Lemma next_buffer_iter k c :
  0 ≤ c ≤ 3 → Nat.iter k next_buffer c = (c + Z.of_nat k) mod 4.
Proof.
  intros Hc. induction k as [|k IH].
  - cbn. rewrite Z.add_0_r, Z.mod_small; lia.
  - rewrite Nat.iter_succ, IH.
    pose proof (Z.mod_pos_bound (c + Z.of_nat k) 4 ltac:(lia)) as Hb.
    replace (c + Z.of_nat (S k)) with ((c + Z.of_nat k) + 1) by lia.
    rewrite <- (Zplus_mod_idemp_l (c + Z.of_nat k) 1 4).
    unfold next_buffer, uint8.
    destruct (Z.gtb_spec ((c + Z.of_nat k) mod 4) 2) as [Hgt|Hle].
    + assert ((c + Z.of_nat k) mod 4 = 3) as -> by lia. reflexivity.
    + rewrite (Z.mod_small (_ + 1) 256) by lia.
      rewrite (Z.mod_small (_ + 1) 4) by lia. reflexivity.
Qed.

Lemma drive_fault ws f s : drive ws (Fault f s) = Fault f s.
Proof. destruct ws; reflexivity. Qed.

Lemma reachable_drive ws s s' :
  reachable s → drive ws (Ok tt s) = Ok tt s' → reachable s'.
Proof.
  revert s. induction ws as [|w ws IH]; intros s Hs Hrun; cbn [drive] in Hrun.
  - congruence.
  - destruct (snd (bus_event w s)) as [[] s1|f s1] eqn:Hev.
    + eapply IH; [|exact Hrun]. eapply reachable_event; eauto.
    + rewrite drive_fault in Hrun. discriminate.
Qed.

End ReceiverFacts.

(** A state of the example configuration is reachable when a run from the
    initial state ends in it. *)
Ltac reached_by ws :=
  apply (reachable_drive (D:=defs4) ws (slave_init (D:=defs4)));
  [apply reachable_init|vm_compute; reflexivity].

(** ** C4: the word the handler transmits *)

(** C4, as the specification has it, fails: with four words to a slot and the
    cursor at 4, which lies in [1, BUFSIZE], the handler transmits [ENDSPI]
    and not the cursor. The state is the one reached after [BEGINSPI] and two
    payload words. *)
Lemma C4_counterexample :
  let s := state_of (drive (D:=defs4) [65535; 10; 20] (Ok tt (slave_init (D:=defs4)))) in
  reachable (D:=defs4) s ∧
  1 ≤ spiBufIdx s ≤ BUFSIZE (D:=defs4) ∧
  transmitted (D:=defs4) s = @ENDSPI defs4 ∧
  transmitted (D:=defs4) s ≠ spiBufIdx s.
Proof.
  cbv zeta. split; [|vm_compute; intuition congruence].
  reached_by [65535; 10; 20].
Qed.

(** C4, amended: the handler transmits the cursor itself whenever the cursor
    is below [BUFSIZE], [ENDSPI] when the cursor equals [BUFSIZE] (and, in a
    usable configuration, only then), and 0 whenever the cursor is greater
    than [BUFSIZE]. *)
Theorem C4_transmitted_word {D : apDefinitions} (s : slave) :
  (spiBufIdx s < BUFSIZE → transmitted s = spiBufIdx s) ∧
  (spiBufIdx s = BUFSIZE → transmitted s = ENDSPI) ∧
  (BUFSIZE < spiBufIdx s → transmitted s = 0) ∧
  (apDefinitions_ok D → (transmitted s = ENDSPI ↔ spiBufIdx s = BUFSIZE)).
Proof.
  rewrite transmitted_next_word. unfold next_word, BUFSIZE.
  destruct (Z.ltb_spec (spiBufIdx s) SPIBUFSIZE) as [Hlt|Hge];
    [|destruct (Z.eqb_spec (spiBufIdx s) SPIBUFSIZE) as [Heq|Hne]].
  - split; [reflexivity|]. split; [lia|]. split; [lia|].
    intros Hok. pose proof ENDSPI_no_index. lia.
  - split; [lia|]. split; [reflexivity|]. split; [lia|]. tauto.
  - split; [lia|]. split; [lia|]. split; [reflexivity|].
    intros Hok. pose proof ENDSPI_no_index. pose proof SPIBUFSIZE_pos. lia.
Qed.

Lemma C4_witness :
  transmitted (D:=defs4) (slave_init (D:=defs4)) = 1 ∧
  (transmitted (D:=defs4) (set_spiBufIdx 4 (slave_init (D:=defs4))) = @ENDSPI defs4
   ↔ spiBufIdx (set_spiBufIdx 4 (slave_init (D:=defs4))) = BUFSIZE (D:=defs4)).
Proof.
  split.
  - apply (C4_transmitted_word (D:=defs4) (slave_init (D:=defs4))). vm_compute. reflexivity.
  - apply (C4_transmitted_word (D:=defs4) (set_spiBufIdx 4 (slave_init (D:=defs4)))).
    exact defs4_ok.
Defined.

(** ** C9: the transmitted word does not depend on the received word *)

(** C9: the word the handler transmits is determined by the cursor at entry
    alone; two invocations entered with the same cursor transmit the same
    word, whatever word each of them receives and whatever the rest of the
    state is. *)
Theorem C9_transmitted_by_cursor {D : apDefinitions} (s1 s2 : slave) :
  spiBufIdx s1 = spiBufIdx s2 → transmitted s1 = transmitted s2.
Proof. intros Heq. rewrite !transmitted_next_word, Heq. reflexivity. Qed.

Lemma C9_witness :
  transmitted (D:=defs4) (set_SPI1RX 65535 (slave_init (D:=defs4))) =
  transmitted (D:=defs4) (set_SPI1RX 77 (slave_init (D:=defs4))).
Proof.
  apply (C9_transmitted_by_cursor (D:=defs4)). reflexivity.
Defined.

(** ** One bus event, field by field *)

Section EventFacts.
Context {D : apDefinitions}.

Lemma in_bounds_spec row off :
  in_bounds row off = true ↔ 0 ≤ row < 3 ∧ 0 ≤ off < SPIBUFSIZE.
Proof.
  unfold in_bounds.
  destruct (Z.leb_spec 0 row), (Z.ltb_spec row 3), (Z.leb_spec 0 off),
    (Z.ltb_spec off SPIBUFSIZE); cbn [andb]; split; intros; try lia;
    try discriminate.
Qed.

Lemma slot_alter_ne (f : list Z → list Z) c r (pool : list (list Z)) :
  0 ≤ c → r ≠ c →
  (if r <? 0 then None else alter f (Z.to_nat c) pool !! Z.to_nat r)
  = (if r <? 0 then None else pool !! Z.to_nat r).
Proof.
  intros Hc Hne. destruct (Z.ltb_spec r 0); [reflexivity|].
  apply list_lookup_alter_ne. lia.
Qed.

Lemma bus_event_fields w s s' :
  snd (bus_event w s) = Ok tt s' →
  currentBuffer s' = (if completes s w then next_buffer (currentBuffer s)
                      else currentBuffer s) ∧
  lastBuffer s' = (if completes s w then currentBuffer s else lastBuffer s) ∧
  spiBufIdx s' = (if completes s w then 1 else uint16 (spiBufIdx s + 1)) ∧
  SPI1TX s' = next_word (spiBufIdx s) ∧
  (∀ r, r ≠ currentBuffer s → slot r s' = slot r s) ∧
  (w ≠ BEGINSPI → in_bounds (currentBuffer s) (uint16 (spiBufIdx s - 2)) = true).
Proof.
  rewrite bus_event_cases. cbn [snd]. cbv zeta. unfold completes, slot.
  destruct (Z.eqb_spec w BEGINSPI) as [Hw|Hw]; cbn [negb andb].
  - intros [= <-]. cbn [currentBuffer lastBuffer spiBufIdx SPI1TX spiRxBuf].
    repeat split; congruence.
  - destruct (in_bounds (currentBuffer s) (uint16 (spiBufIdx s - 2))) eqn:Hin;
      [|discriminate].
    apply in_bounds_spec in Hin.
    destruct (uint16 (spiBufIdx s + 1) >? SPIBUFSIZE); intros [= <-];
      cbn [currentBuffer lastBuffer spiBufIdx SPI1TX spiRxBuf];
      (repeat split; try reflexivity);
      intros r Hr; apply slot_alter_ne; lia.
Qed.

End EventFacts.

(** ** Runs of the handler *)

Section RunFacts.
Context {D : apDefinitions}.

Lemma drive_cons w ws s :
  drive (w :: ws) (Ok tt s) = drive ws (snd (bus_event w s)).
Proof. reflexivity. Qed.

Lemma completions_fault ws f s : completions ws (Fault f s) = 0%nat.
Proof. destruct ws; reflexivity. Qed.



(** The handler takes the branch of line 162 exactly when the incremented
    cursor exceeds [SPIBUFSIZE]. *)
Lemma rotation_iff_exceeds_SPIBUFSIZE w s s' :
  w ≠ BEGINSPI → snd (bus_event w s) = Ok tt s' →
  (uint16 (spiBufIdx s + 1) > SPIBUFSIZE →
     spiBufIdx s' = 1 ∧ lastBuffer s' = currentBuffer s ∧
     currentBuffer s' = next_buffer (currentBuffer s)) ∧
  (uint16 (spiBufIdx s + 1) ≤ SPIBUFSIZE →
     spiBufIdx s' = uint16 (spiBufIdx s + 1) ∧ lastBuffer s' = lastBuffer s ∧
     currentBuffer s' = currentBuffer s).
Proof.
  intros Hw Hev. destruct (bus_event_fields _ _ _ Hev) as (Hc & Hl & Hi & _).
  unfold completes in *. destruct (Z.eqb_spec w BEGINSPI); [contradiction|].
  cbn [negb andb] in *.
  destruct (Z.gtb_spec (uint16 (spiBufIdx s + 1)) SPIBUFSIZE);
    split; intros; try lia; auto.
Qed.

(** While no frame completes, both buffer designations stay put and every
    slot other than the current one keeps its contents. *)
Lemma quiet_run ws s s' :
  drive ws (Ok tt s) = Ok tt s' → completions ws (Ok tt s) = 0%nat →
  currentBuffer s' = currentBuffer s ∧ lastBuffer s' = lastBuffer s ∧
  ∀ r, r ≠ currentBuffer s → slot r s' = slot r s.
Proof.
  revert s. induction ws as [|w ws IH]; intros s Hrun Hq.
  - cbn in Hrun. injection Hrun as <-. auto.
  - rewrite drive_cons in Hrun. cbn [completions] in Hq.
    destruct (snd (bus_event w s)) as [[] s1|f s1] eqn:Hev.
    + destruct (bus_event_fields _ _ _ Hev) as (Hc & Hl & _ & _ & Hs & _).
      destruct (completes s w); [discriminate|]. cbn [Nat.add] in Hq.
      destruct (IH _ Hrun Hq) as (Hc' & Hl' & Hs').
      rewrite Hc', Hl', Hc, Hl. repeat split; try reflexivity.
      intros r Hr. rewrite Hs' by congruence. auto.
    + rewrite drive_fault in Hrun. discriminate.
Qed.

Lemma reachable_distinct s : reachable s → lastBuffer s ≠ currentBuffer s.
Proof.
  induction 1 as [|s w s' Hs IH Hev].
  - cbn. lia.
  - destruct (bus_event_fields _ _ _ Hev) as (Hc & Hl & _).
    rewrite Hc, Hl. destruct (completes s w); [|exact IH].
    intros Heq. symmetry in Heq. exact (next_buffer_moves _ Heq).
Qed.

End RunFacts.

(** ** The handler on the target *)

Section TargetFacts.
Context {D : apDefinitions}.

Lemma handler_flat_cases s :
  _SPI1Interrupt store_flat s =
    let idx := spiBufIdx s in
    let w := SPI1RX s in
    let cur := currentBuffer s in
    if w =? BEGINSPI then
      Ok tt (mkSlave (spiRxBuf s) cur (lastBuffer s) (uint16 (idx + 1))
               (next_word idx) w false)
    else
      let i := flat_index cur (uint16 (idx - 2)) in
      let pool :=
        if i <? 3 * SPIBUFSIZE
        then alter (λ r, <[Z.to_nat (i mod SPIBUFSIZE) := w]> r)
                   (Z.to_nat (i / SPIBUFSIZE)) (spiRxBuf s)
        else spiRxBuf s in
      if uint16 (idx + 1) >? SPIBUFSIZE then
        Ok tt (mkSlave pool (next_buffer cur) cur 1 (next_word idx) w false)
      else
        Ok tt (mkSlave pool cur (lastBuffer s) (uint16 (idx + 1)) (next_word idx) w false).
Proof.
  destruct s as [pool cur last idx tx rx fl].
  cbv beta iota zeta delta
    [_SPI1Interrupt next_word mbind M_bind bind mret M_ret ret get put
     WriteSPI1 ReadSPI1 store_flat spiRxBuf currentBuffer lastBuffer spiBufIdx
     SPI1TX SPI1RX SPI1IF set_SPI1TX set_spiRxBuf set_spiBufIdx
     set_lastBuffer set_currentBuffer set_SPI1IF].
  destruct (idx <? SPIBUFSIZE); [|destruct (idx =? SPIBUFSIZE)];
    cbv beta iota;
    (destruct (rx =? BEGINSPI); [reflexivity|]);
    destruct (flat_index cur (uint16 (idx - 2)) <? 3 * SPIBUFSIZE);
    cbv beta iota;
    destruct (uint16 (idx + 1) >? SPIBUFSIZE); reflexivity.
Qed.

Lemma target_event_cases w s :
  target_event w s =
    (SPI1TX s,
     let idx := spiBufIdx s in
     let cur := currentBuffer s in
     if w =? BEGINSPI then
       mkSlave (spiRxBuf s) cur (lastBuffer s) (uint16 (idx + 1)) (next_word idx) w false
     else
       let i := flat_index cur (uint16 (idx - 2)) in
       let pool :=
         if i <? 3 * SPIBUFSIZE
         then alter (λ r, <[Z.to_nat (i mod SPIBUFSIZE) := w]> r)
                    (Z.to_nat (i / SPIBUFSIZE)) (spiRxBuf s)
         else spiRxBuf s in
       if uint16 (idx + 1) >? SPIBUFSIZE then
         mkSlave pool (next_buffer cur) cur 1 (next_word idx) w false
       else
         mkSlave pool cur (lastBuffer s) (uint16 (idx + 1)) (next_word idx) w false).
Proof.
  unfold target_event. rewrite handler_flat_cases. cbv zeta.
  cbn [SPI1RX set_SPI1IF set_SPI1RX spiRxBuf currentBuffer lastBuffer spiBufIdx SPI1TX].
  destruct (w =? BEGINSPI); [reflexivity|].
  destruct (uint16 (spiBufIdx s + 1) >? SPIBUFSIZE); reflexivity.
Qed.

(** The handler's own variables after an event on the target; they do not
    depend on where the store landed. *)
Lemma target_fields w s :
  currentBuffer (snd (target_event w s))
  = (if completes s w then next_buffer (currentBuffer s) else currentBuffer s) ∧
  lastBuffer (snd (target_event w s))
  = (if completes s w then currentBuffer s else lastBuffer s) ∧
  spiBufIdx (snd (target_event w s))
  = (if completes s w then 1 else uint16 (spiBufIdx s + 1)) ∧
  SPI1TX (snd (target_event w s)) = next_word (spiBufIdx s).
Proof.
  rewrite target_event_cases. cbn [snd]. cbv zeta. unfold completes.
  destruct (w =? BEGINSPI); cbn [negb andb]; [repeat split|].
  destruct (uint16 (spiBufIdx s + 1) >? SPIBUFSIZE); repeat split.
Qed.

Lemma entered_distinct s : entered s → lastBuffer s ≠ currentBuffer s.
Proof.
  induction 1 as [|s w Hs IH].
  - cbn. lia.
  - destruct (target_fields w s) as (Hc & Hl & _). rewrite Hc, Hl.
    destruct (completes s w); [|exact IH].
    intros Heq. symmetry in Heq. exact (next_buffer_moves _ Heq).
Qed.

Lemma entered_run ws : ∀ s, entered s → entered (run ws s).
Proof.
  induction ws as [|w ws IH]; intros s Hs; [exact Hs|].
  cbn [run]. apply IH. constructor. exact Hs.
Qed.


Context {Dok : apDefinitions_ok D}.

(** Subscripts inside a row address the word they name. *)
Lemma flat_index_in_row row off :
  in_bounds row off = true →
(flat_index row off <? 3 * SPIBUFSIZE) = true ∧
  flat_index row off / SPIBUFSIZE = row ∧
  flat_index row off mod SPIBUFSIZE = off.
Proof.
  intros Hin. apply in_bounds_spec in Hin as [Hrow Hoff].
  pose proof SPIBUFSIZE_fits as Hfit.
  assert (0 ≤ row * SPIBUFSIZE + off < 3 * SPIBUFSIZE) as Hflat by nia.
  assert (flat_index row off = row * SPIBUFSIZE + off) as ->.
  { unfold flat_index. rewrite Z.mod_small by lia.
    rewrite Z.mul_comm. apply Z.div_mul. lia. }
  split; [apply Z.ltb_lt; lia|]. split.
  - symmetry. apply (Z.div_unique_pos _ _ row off); lia.
  - symmetry. apply (Z.mod_unique_pos _ _ row off); lia.
Qed.

(** Where C's rule lets the handler run, the target does the same. *)
Lemma target_event_in_row w s s' :
  snd (bus_event w s) = Ok tt s' → snd (target_event w s) = s'.
Proof.
  rewrite bus_event_cases, target_event_cases. cbn [snd]. cbv zeta.
  destruct (w =? BEGINSPI); [intros [= <-]; reflexivity|].
  destruct (in_bounds _ _) eqn:Hin; [|discriminate].
  destruct (flat_index_in_row _ _ Hin) as (-> & -> & ->).
  destruct (uint16 (spiBufIdx s + 1) >? SPIBUFSIZE); intros [= <-]; reflexivity.
Qed.

Lemma target_of_bus_event w s r s' :
  bus_event w s = (r, Ok tt s') → target_event w s = (r, s').
Proof.
  intros Hev. assert (snd (bus_event w s) = Ok tt s') as Hsnd by (rewrite Hev; reflexivity).
  rewrite <- (target_event_in_row _ _ _ Hsnd).
  assert (r = SPI1TX s) as -> by (unfold bus_event in Hev; congruence).
  reflexivity.
Qed.

Lemma drive_run ws : ∀ s s', drive ws (Ok tt s) = Ok tt s' → run ws s = s'.
Proof.
  induction ws as [|w ws IH]; intros s s' Hrun.
  - cbn in Hrun. injection Hrun as <-. reflexivity.
  - cbn [drive] in Hrun. cbn [run].
    destruct (snd (bus_event w s)) as [[] s1|f s1] eqn:Hev.
    + rewrite (target_event_in_row _ _ _ Hev). apply IH. exact Hrun.
    + rewrite drive_fault in Hrun. discriminate.
Qed.

Lemma reachable_entered s : reachable s → entered s.
Proof.
  induction 1 as [|s w s' _ IH Hev]; [constructor|].
  rewrite <- (target_event_in_row _ _ _ Hev). constructor. exact IH.
Qed.


End TargetFacts.

(** ** C5: when the handler rotates *)

(** C5 does not hold of the code: with four words to a slot, the handler
    entered at cursor 4 with a payload word increments the cursor to 5, which
    does not exceed [BUFSIZE + 1], and still resets the cursor to 1, publishes
    the current buffer as [lastBuffer] and advances [currentBuffer]. The test
    of line 162 fires one event before the claim's (see
    [rotation_iff_exceeds_SPIBUFSIZE]). *)
Theorem C5_rotation_one_event_early :
  let s := state_of (drive (D:=defs4) [65535; 10; 20] (Ok tt (slave_init (D:=defs4)))) in
  reachable (D:=defs4) s ∧
  spiBufIdx s = 4 ∧ 30 ≠ @BEGINSPI defs4 ∧
  ¬ (uint16 (spiBufIdx s + 1) > BUFSIZE (D:=defs4) + 1) ∧
  ∃ s', snd (bus_event (D:=defs4) 30 s) = Ok tt s' ∧
        spiBufIdx s' = 1 ∧
        lastBuffer s' = currentBuffer s ∧
        currentBuffer s' = next_buffer (currentBuffer s) ∧
        currentBuffer s' ≠ currentBuffer s.
Proof.
  cbv zeta. split.
  { reached_by [65535; 10; 20]. }
  split; [vm_compute; reflexivity|].
  split; [vm_compute; congruence|].
  split; [vm_compute; congruence|].
  eexists. split; [vm_compute; reflexivity|].
  vm_compute. repeat split; congruence.
Qed.

(** ** C3: the period of the rotation *)

(** C3 does not hold of the code: [currentBuffer > 2 ? 0 : currentBuffer + 1]
    steps 0, 1, 2, 3, 0, ..., so the rotation has period four. After three
    completed frames the current buffer is 3, which is neither [3 mod 3] nor
    the index of a slot of the three-slot pool. ([currentBuffer_mod_4] has
    [k mod 4] for every run of the handler.) *)
Theorem C3_rotation_period_four :
  (∀ k : nat, Nat.iter k next_buffer 0 = Z.of_nat k mod 4) ∧
  let ws := [65535; 1; 2; 3; 65535; 4; 5; 6; 65535; 7; 8; 9] in
  completions (D:=defs4) ws (Ok tt (slave_init (D:=defs4))) = 3%nat ∧
  ∃ s, drive (D:=defs4) ws (Ok tt (slave_init (D:=defs4))) = Ok tt s ∧
       currentBuffer s = 3 ∧
       currentBuffer s ≠ 3 mod 3 ∧
       ¬ (0 ≤ currentBuffer s ≤ 2) ∧
       slot (currentBuffer s) s = None.
Proof.
  split.
  - intros k. rewrite next_buffer_iter by lia. reflexivity.
  - cbv zeta. split; [vm_compute; reflexivity|].
    eexists. split; [vm_compute; reflexivity|].
    vm_compute. repeat split; try congruence. intros [_ H]. apply H. reflexivity.
Qed.

(** ** C8: the range of the cursor *)


Section CursorRange.
Context {D : apDefinitions} {Dok : apDefinitions_ok D}.


End CursorRange.



(** ** C10: what [lastBuffer] names before the first frame *)

(** C10: initially [currentBuffer] is 0 and [lastBuffer] is 2; along every
    run in which no frame has completed yet, [lastBuffer] is still 2 and the
    slot it names still holds the pool's initial contents (all zeroes), so
    what a consumer reads through [lastBuffer] is what it would read before
    any bus event at all. *)
Theorem C10_lastBuffer_before_first_frame {D : apDefinitions} :
  currentBuffer slave_init = 0 ∧ lastBuffer slave_init = 2 ∧
  slot 2 slave_init = Some (replicate (Z.to_nat SPIBUFSIZE) 0) ∧
  ∀ ws s,
    drive ws (Ok tt slave_init) = Ok tt s →
    completions ws (Ok tt slave_init) = 0%nat →
    currentBuffer s = 0 ∧ lastBuffer s = 2 ∧
    slot (lastBuffer s) s = slot (lastBuffer slave_init) slave_init.
Proof.
  split; [reflexivity|]. split; [reflexivity|]. split; [reflexivity|].
  intros ws s Hrun Hq.
  destruct (quiet_run _ _ _ Hrun Hq) as (Hc & Hl & Hs).
  rewrite Hc, Hl. split; [reflexivity|]. split; [reflexivity|].
  apply Hs. cbn. lia.
Qed.

Lemma C10_witness :
  ∃ s, drive (D:=defs4) [65535; 10; 20] (Ok tt (slave_init (D:=defs4))) = Ok tt s ∧
       slot 0 s = Some [10; 20; 0; 0] ∧
       currentBuffer s = 0 ∧ lastBuffer s = 2 ∧
       slot (lastBuffer s) s = slot (lastBuffer (slave_init (D:=defs4))) (slave_init (D:=defs4)).
Proof.
  eexists. split; [vm_compute; reflexivity|]. split; [vm_compute; reflexivity|].
  destruct (C10_lastBuffer_before_first_frame (D:=defs4)) as (_ & _ & _ & H).
  apply (H [65535; 10; 20]); vm_compute; reflexivity.
Defined.

(** ** C6: the published slot *)

(** C6 does not hold of the code: the handler writes into the slot that
    [lastBuffer] names. With four words to a slot, after [BEGINSPI], 10, 20
    and 30 the handler has published slot 0 holding [10; 20; 30; 0]. The next
    word, 40, reaches it at cursor 1; its store through
    [spiRxBuf[1][65535]] falls on word 3 of the pool, the last word of
    slot 0, and slot 0 reads [10; 20; 30; 40] while [lastBuffer] is still 0
    and nothing has been rotated. What does hold is that [lastBuffer] and
    [currentBuffer] differ ([entered_distinct] has it for every state the
    handler is entered in). *)
Theorem C6_published_slot_written :
  let s := run (D:=defs4) [65535; 10; 20; 30] (slave_init (D:=defs4)) in
  let s' := snd (target_event (D:=defs4) 40 s) in
  entered (D:=defs4) s ∧
  lastBuffer s = 0 ∧ currentBuffer s = 1 ∧ spiBufIdx s = 1 ∧
  slot (lastBuffer s) s = Some [10; 20; 30; 0] ∧
  flat_index (D:=defs4) (currentBuffer s) (uint16 (spiBufIdx s - 2)) = 3 ∧
  completes (D:=defs4) s 40 = false ∧
  lastBuffer s' = lastBuffer s ∧ currentBuffer s' = currentBuffer s ∧
  slot (lastBuffer s) s' = Some [10; 20; 30; 40] ∧
  slot (lastBuffer s) s' ≠ slot (lastBuffer s) s.
Proof.
  cbv zeta. split; [apply entered_run; constructor|].
  vm_compute. repeat split; congruence.
Qed.

(** ** The sender against any bus *)

Section SenderFacts.
Context {D : apDefinitions} {B : Type} {bus : Bus B}.

Lemma logged_Returned e (o : outcome B) tr b :
  logged e o = Returned tr b ↔ ∃ tr0, o = Returned tr0 b ∧ tr = e :: tr0.
Proof.
  destruct o as [tr0 b0|why tr0 b0|]; cbn; split.
  - intros [= <- <-]. eauto.
  - intros (tr1 & [= -> ->] & ->). reflexivity.
  - discriminate.
  - intros (tr1 & [=] & _).
  - discriminate.
  - intros (tr1 & [=] & _).
Qed.

Lemma spiSend_loop_step fuel data2Send rcvdIdx w r b b' :
  rcvdIdx ≠ ENDSPI → data_at data2Send rcvdIdx = Some w →
  exchange w b = Some (r, b') →
  spiSend_loop (S fuel) data2Send rcvdIdx b
  = logged (w, r) (spiSend_loop fuel data2Send r b').
Proof.
  intros Hne Hw Hx. cbn [spiSend_loop].
  destruct (Z.eqb_spec rcvdIdx ENDSPI); [contradiction|].
  rewrite Hw, Hx. reflexivity.
Qed.

Lemma spiSend_loop_end fuel data2Send b :
  spiSend_loop (S fuel) data2Send ENDSPI b = Returned [] b.
Proof. cbn [spiSend_loop]. rewrite Z.eqb_refl. reflexivity. Qed.

Lemma spiSend_loop_refines fuel : ∀ frame idx b tr b',
  spiSend_loop fuel frame idx b = Returned tr b' →
  sender_loop_spec frame idx b tr b'.
Proof.
  induction fuel as [|fuel IH]; intros frame idx b tr b' Hrun; [discriminate|].
  cbn [spiSend_loop] in Hrun.
  destruct (Z.eqb_spec idx ENDSPI) as [->|Hne].
  - injection Hrun as <- <-. constructor.
  - destruct (data_at frame idx) as [w|] eqn:Hw; [|discriminate].
    destruct (exchange w b) as [[r b1]|] eqn:Hx; [|discriminate].
    apply logged_Returned in Hrun as (tr0 & Hrun & ->).
    econstructor; eauto.
Qed.

Lemma sender_loop_spec_runs frame idx b tr b' :
  sender_loop_spec frame idx b tr b' →
  ∃ fuel, spiSend_loop fuel frame idx b = Returned tr b'.
Proof.
  induction 1 as [b|idx w r b b1 tr b2 Hne Hw Hx _ [fuel IH]].
  - exists 1%nat. apply spiSend_loop_end.
  - exists (S fuel). rewrite (spiSend_loop_step _ _ _ _ _ _ _ Hne Hw Hx), IH.
    reflexivity.
Qed.

Lemma spiSend_loop_more_fuel fuel : ∀ fuel' frame idx b tr b',
  (fuel ≤ fuel')%nat →
  spiSend_loop fuel frame idx b = Returned tr b' →
  spiSend_loop fuel' frame idx b = Returned tr b'.
Proof.
  induction fuel as [|fuel IH]; intros fuel' frame idx b tr b' Hle Hrun;
    [discriminate|].
  destruct fuel' as [|fuel']; [lia|].
  cbn [spiSend_loop] in *.
  destruct (idx =? ENDSPI); [exact Hrun|].
  destruct (data_at frame idx) as [w|]; [|discriminate].
  destruct (exchange w b) as [[r b1]|]; [|discriminate].
  apply logged_Returned in Hrun as (tr0 & Hrun & ->).
  rewrite (IH fuel' _ _ _ _ _ ltac:(lia) Hrun). reflexivity.
Qed.

(** What a trace of the loop looks like: the indices used are the index the
    loop was entered with and the words received, up to the final [ENDSPI]. *)
Lemma sender_loop_spec_trace frame idx b tr b' :
  sender_loop_spec frame idx b tr b' →
  ∃ idxs, idx :: received tr = idxs ++ [ENDSPI] ∧
          Forall (λ i, i ≠ ENDSPI) idxs ∧
          Forall2 (λ i w, data_at frame i = Some w) idxs (sent tr).
Proof.
  induction 1 as [b|idx w r b b1 tr b2 Hne Hw Hx _ (idxs & Heq & Hall & Hsent)].
  - exists []. repeat split; constructor.
  - exists (idx :: idxs). unfold received, sent in *. cbn [fmap list_fmap fst snd].
    change (list_fmap _ _ snd tr) with (tr.*2). change (list_fmap _ _ fst tr) with (tr.*1).
    rewrite Heq. repeat split; constructor; assumption.
Qed.

End SenderFacts.

(** ** C7: what [spiSend] does on the bus *)

(** C7: [spiSend] returns with a trace of round trips exactly when that
    trace is an exchange as the specification describes it ([BEGIN] first and
    its response read as the requested index; while that index is not [END],
    the frame's word at the index and the next response; return on [END]).
    In such a trace the first word transmitted is [BEGINSPI], every later word
    transmitted is the frame's word at the index received just before, the
    last word received is [ENDSPI] and no earlier one is, and there is one
    word received for each word transmitted. *)
Theorem C7_spiSend_protocol {D : apDefinitions} {B : Type} {bus : Bus B}
    (frame : list Z) (b b' : B) (tr : list (Z * Z)) :
  ((∃ fuel, spiSend fuel frame b = Returned tr b') ↔ sender_spec frame b tr b') ∧
  (∀ fuel, spiSend fuel frame b = Returned tr b' →
     (∀ fuel', (fuel ≤ fuel')%nat → spiSend fuel' frame b = Returned tr b') ∧
     ∃ idxs ws,
       sent tr = BEGINSPI :: ws ∧
       received tr = idxs ++ [ENDSPI] ∧
       Forall (λ i, i ≠ ENDSPI) idxs ∧
       Forall2 (λ i w, data_at frame i = Some w) idxs ws ∧
       length (sent tr) = length (received tr)).
Proof.
  assert (∀ fuel, spiSend fuel frame b = Returned tr b' → sender_spec frame b tr b')
    as Hrefines.
  { intros fuel Hrun. unfold spiSend in Hrun.
    destruct (exchange BEGINSPI b) as [[r b1]|] eqn:Hx; [|discriminate].
    apply logged_Returned in Hrun as (tr0 & Hrun & ->).
    econstructor; [exact Hx|]. eapply spiSend_loop_refines; exact Hrun. }
  split; [split|].
  - intros [fuel Hrun]. eauto.
  - intros Hspec. destruct Hspec as [b r b1 tr b2 Hx Hloop].
    destruct (sender_loop_spec_runs _ _ _ _ _ Hloop) as [fuel Hrun].
    exists fuel. unfold spiSend. rewrite Hx, Hrun. reflexivity.
  - intros fuel Hrun. split.
    + intros fuel' Hle. unfold spiSend in *.
      destruct (exchange BEGINSPI b) as [[r b1]|]; [|discriminate].
      apply logged_Returned in Hrun as (tr0 & Hrun & ->).
      rewrite (spiSend_loop_more_fuel _ _ _ _ _ _ _ Hle Hrun). reflexivity.
    + destruct (Hrefines _ Hrun) as [b0 r b1 tr0 b2 Hx Hloop].
      destruct (sender_loop_spec_trace _ _ _ _ _ Hloop) as (idxs & Heq & Hall & Hsent).
      exists idxs, (sent tr0). unfold sent, received in *.
      cbn [fmap list_fmap fst snd].
      change (list_fmap _ _ snd tr0) with (tr0.*2).
      change (list_fmap _ _ fst tr0) with (tr0.*1).
      repeat split; try assumption.
      cbn [length]. f_equal.
      transitivity (length tr0); [apply length_fmap|symmetry; apply length_fmap].
Qed.

Lemma C7_witness :
  sender_spec (D:=defs4) (bus:=script_bus) [10; 20; 30; 40] [0; 1; 2; 3; 48879; 7]
    [(65535, 0); (10, 1); (20, 2); (30, 3); (40, 48879)] [7].
Proof.
  apply (C7_spiSend_protocol (D:=defs4) (bus:=script_bus)).
  exists 5%nat. vm_compute. reflexivity.
Defined.

(** ** The store at cursor 1 *)

Section CursorOne.
Context {D : apDefinitions} {Dok : apDefinitions_ok D}.

(** At cursor 1 the subscript of the store of a payload word is outside its
    row. *)
Lemma store_at_cursor_1 s w :
  spiBufIdx s = 1 → w ≠ BEGINSPI →
  uint16 (spiBufIdx s - 2) = 65535 ∧
  in_bounds (currentBuffer s) (uint16 (spiBufIdx s - 2)) = false ∧
  bus_event w s
  = (SPI1TX s,
     Fault (RxBufOutOfBounds (currentBuffer s) (uint16 (spiBufIdx s - 2)))
       (mkSlave (spiRxBuf s) (currentBuffer s) (lastBuffer s) 1
          (next_word 1) w true)).
Proof.
  intros Hi Hw. pose proof SPIBUFSIZE_fits as Hfit.
  assert (uint16 (spiBufIdx s - 2) = 65535) as H16 by (rewrite Hi; reflexivity).
  assert (in_bounds (currentBuffer s) (uint16 (spiBufIdx s - 2)) = false) as Hout.
  { rewrite H16. destruct (in_bounds _ _) eqn:Hin; [|reflexivity].
    apply in_bounds_spec in Hin. lia. }
  split; [exact H16|]. split; [exact Hout|].
  rewrite bus_event_cases. cbv zeta. rewrite Hout.
  destruct (Z.eqb_spec w BEGINSPI); [contradiction|]. rewrite Hi. reflexivity.
Qed.

End CursorOne.

(** ** One frame, sender against receiver *)

Section Exchange.
Context {D : apDefinitions} {Dok : apDefinitions_ok D}.
Variable frame : list Z.
Hypothesis frame_length : length frame = Z.to_nat SPIBUFSIZE.
Hypothesis frame_payload : payload frame.

Lemma frame_word k w : frame !! k = Some w → w ≠ BEGINSPI.
Proof.
  intros Hk. unfold payload in frame_payload.
  rewrite Forall_lookup in frame_payload. apply (frame_payload k w Hk).
Qed.

Lemma data_at_frame k : data_at frame (Z.of_nat k) = frame !! k.
Proof.
  unfold data_at. destruct (Z.ltb_spec (Z.of_nat k) 0); [lia|].
  rewrite Nat2Z.id. reflexivity.
Qed.

Lemma row_fill k w :
  frame !! k = Some w →
  <[k := w]> (take k frame ++ replicate (Z.to_nat SPIBUFSIZE - k) 0)
  = take (S k) frame ++ replicate (Z.to_nat SPIBUFSIZE - S k) 0.
Proof.
  intros Hk. pose proof (lookup_lt_Some _ _ _ Hk) as Hlt.
  rewrite insert_app_r_alt by (rewrite length_take; lia).
  rewrite length_take_le, Nat.sub_diag by lia.
  replace (Z.to_nat SPIBUFSIZE - k)%nat with (S (Z.to_nat SPIBUFSIZE - S k)) by lia.
  cbn [replicate]. rewrite (take_S_r _ _ _ Hk), <- app_assoc. reflexivity.
Qed.

Lemma exchange_begin :
  2 ≤ SPIBUFSIZE →
  ∃ s, bus_event BEGINSPI slave_init = (0, Ok tt s) ∧ receiving frame 0 s.
Proof.
  intros H2.
  assert (bus_event BEGINSPI slave_init
          = (0, Ok tt (mkSlave (replicate 3 (replicate (Z.to_nat SPIBUFSIZE) 0))
                         0 2 2 1 BEGINSPI false))) as Hev.
  { rewrite bus_event_cases. cbv zeta. rewrite Z.eqb_refl.
    cbn [slave_init spiSlaveInit power_on set_SPI1IF set_SPI1TX spiRxBuf
         currentBuffer lastBuffer spiBufIdx SPI1TX].
    unfold next_word. destruct (Z.ltb_spec 1 SPIBUFSIZE); [|lia]. reflexivity. }
  eexists. split; [exact Hev|].
  split; [eapply reachable_event; [apply reachable_init|rewrite Hev; reflexivity]|].
  cbn [currentBuffer lastBuffer spiBufIdx SPI1TX spiRxBuf].
  rewrite Nat.sub_0_r. repeat split; reflexivity.
Qed.

Lemma exchange_word k s w :
  receiving frame k s → Z.of_nat k + 2 < SPIBUFSIZE → frame !! k = Some w →
  ∃ s', bus_event w s = (Z.of_nat (S k), Ok tt s') ∧ receiving frame (S k) s'.
Proof.
  intros (Hr & Hc & Hl & Hi & Ht & Hp) Hk Hw.
  pose proof (frame_word _ _ Hw) as Hnb.
  pose proof SPIBUFSIZE_fits as Hfit.
  assert (bus_event w s
          = (Z.of_nat (S k),
             Ok tt (mkSlave
                      [take (S k) frame ++ replicate (Z.to_nat SPIBUFSIZE - S k) 0;
                       replicate (Z.to_nat SPIBUFSIZE) 0;
                       replicate (Z.to_nat SPIBUFSIZE) 0]
                      0 2 (Z.of_nat k + 3) (Z.of_nat k + 2) w false))) as Hev.
  { rewrite bus_event_cases. cbv zeta. rewrite Ht, Hc, Hl, Hi, Hp.
    replace (Z.of_nat k + 1) with (Z.of_nat (S k)) by lia.
    destruct (Z.eqb_spec w BEGINSPI); [contradiction|].
    replace (Z.of_nat k + 2 - 2) with (Z.of_nat k) by lia.
    replace (Z.of_nat k + 2 + 1) with (Z.of_nat k + 3) by lia.
    unfold uint16. rewrite !Z.mod_small by lia.
    assert (in_bounds 0 (Z.of_nat k) = true) as -> by (apply in_bounds_spec; lia).
    destruct (Z.gtb_spec (Z.of_nat k + 3) SPIBUFSIZE); [lia|].
    unfold next_word. destruct (Z.ltb_spec (Z.of_nat k + 2) SPIBUFSIZE); [|lia].
    rewrite Nat2Z.id. change (Z.to_nat 0) with 0%nat. cbn [alter list_alter].
    rewrite (row_fill _ _ Hw). reflexivity. }
  eexists. split; [exact Hev|].
  split; [eapply reachable_event; [exact Hr|rewrite Hev; reflexivity]|].
  cbn [currentBuffer lastBuffer spiBufIdx SPI1TX spiRxBuf].
  repeat split; try reflexivity; lia.
Qed.

Lemma exchange_last_stored k s w :
  receiving frame k s → Z.of_nat k + 2 = SPIBUFSIZE → frame !! k = Some w →
  ∃ s', bus_event w s = (Z.of_nat (S k), Ok tt s') ∧ published frame s'.
Proof.
  intros (Hr & Hc & Hl & Hi & Ht & Hp) Hk Hw.
  pose proof (frame_word _ _ Hw) as Hnb.
  pose proof SPIBUFSIZE_fits as Hfit.
  assert (bus_event w s
          = (Z.of_nat (S k),
             Ok tt (mkSlave
                      [take (S k) frame ++ replicate (Z.to_nat SPIBUFSIZE - S k) 0;
                       replicate (Z.to_nat SPIBUFSIZE) 0;
                       replicate (Z.to_nat SPIBUFSIZE) 0]
                      1 0 1 ENDSPI w false))) as Hev.
  { rewrite bus_event_cases. cbv zeta. rewrite Ht, Hc, Hl, Hi, Hp.
    replace (Z.of_nat k + 1) with (Z.of_nat (S k)) by lia.
    destruct (Z.eqb_spec w BEGINSPI); [contradiction|].
    replace (Z.of_nat k + 2 - 2) with (Z.of_nat k) by lia.
    replace (Z.of_nat k + 2 + 1) with (Z.of_nat k + 3) by lia.
    unfold uint16. rewrite !Z.mod_small by lia.
    assert (in_bounds 0 (Z.of_nat k) = true) as -> by (apply in_bounds_spec; lia).
    destruct (Z.gtb_spec (Z.of_nat k + 3) SPIBUFSIZE); [|lia].
    unfold next_word. destruct (Z.ltb_spec (Z.of_nat k + 2) SPIBUFSIZE); [lia|].
    destruct (Z.eqb_spec (Z.of_nat k + 2) SPIBUFSIZE); [|lia].
    rewrite Nat2Z.id. change (Z.to_nat 0) with 0%nat. cbn [alter list_alter].
    rewrite (row_fill _ _ Hw). reflexivity. }
  eexists. split; [exact Hev|].
  split; [eapply reachable_event; [exact Hr|rewrite Hev; reflexivity]|].
  cbn [currentBuffer lastBuffer spiBufIdx SPI1TX spiRxBuf].
  repeat split; try reflexivity.
  unfold slot. cbn [lastBuffer spiRxBuf]. cbn [Z.ltb Z.compare Z.to_nat lookup list_lookup].
  replace (Z.to_nat SPIBUFSIZE - 1)%nat with (S k) by lia.
  replace (Z.to_nat SPIBUFSIZE - S k)%nat with 1%nat by lia. reflexivity.
Qed.

(** From the [k]-th payload word on: the sender keeps answering the indices
    it reads, the handler stores all but the last word of the frame, and the
    round trip that brings [ENDSPI] to the sender brings the last word to a
    handler back at cursor 1. *)
Lemma exchange_rest (n : nat) : ∀ (k : nat) s,
  (k + n + 2 = Z.to_nat SPIBUFSIZE)%nat → receiving frame k s →
  ∃ sP sF w tr,
    published frame sP ∧
    last frame = Some w ∧ w ≠ BEGINSPI ∧
    bus_event w sP = (ENDSPI, Fault (RxBufOutOfBounds 1 65535) sF) ∧
    spiSend_loop (n + 3) frame (Z.of_nat k) (Ok tt s)
    = Returned tr (Fault (RxBufOutOfBounds 1 65535) sF) ∧
    sent tr = drop k frame ∧
    received tr = seqZ (Z.of_nat (S k)) (SPIBUFSIZE - Z.of_nat (S k)) ++ [ENDSPI].
Proof.
  pose proof ENDSPI_no_index as Hend. pose proof SPIBUFSIZE_pos as Hpos.
  induction n as [|n IH]; intros k s Hk Hrecv.
  - destruct (lookup_lt_is_Some_2 frame k ltac:(lia)) as [w1 Hw1].
    destruct (lookup_lt_is_Some_2 frame (S k) ltac:(lia)) as [w2 Hw2].
    destruct (exchange_last_stored k s w1 Hrecv ltac:(lia) Hw1) as (sP & Hev1 & HP).
    pose proof HP as (_ & HcP & _ & HiP & HtP & _).
    destruct (store_at_cursor_1 sP w2 HiP (frame_word _ _ Hw2)) as (H16 & _ & Hev2).
    rewrite H16, HcP, HtP in Hev2.
    match type of Hev2 with _ = (_, Fault _ ?x) => set (sF := x) in Hev2 end.
    exists sP, sF, w2, [(w1, Z.of_nat (S k)); (w2, ENDSPI)].
    split; [exact HP|]. split.
    { rewrite last_lookup, frame_length.
      replace (Init.Nat.pred (Z.to_nat SPIBUFSIZE)) with (S k) by lia. exact Hw2. }
    split; [exact (frame_word _ _ Hw2)|]. split; [exact Hev2|].
    split; [|split].
    + cbn [Nat.add].
      rewrite (spiSend_loop_step _ _ (Z.of_nat k) w1 (Z.of_nat (S k)) _ (Ok tt sP));
        [|lia|rewrite data_at_frame; exact Hw1
         |unfold exchange, slave_bus; rewrite Hev1; reflexivity].
      rewrite (spiSend_loop_step _ _ (Z.of_nat (S k)) w2 ENDSPI _
                 (Fault (RxBufOutOfBounds 1 65535) sF));
        [|lia|rewrite data_at_frame; exact Hw2
         |unfold exchange, slave_bus; rewrite Hev2; reflexivity].
      rewrite spiSend_loop_end. reflexivity.
    + unfold sent. cbn [fmap list_fmap fst].
      rewrite (drop_S _ _ _ Hw1), (drop_S _ _ _ Hw2), drop_ge by lia.
      reflexivity.
    + unfold received. cbn [fmap list_fmap snd].
      replace (SPIBUFSIZE - Z.of_nat (S k)) with 1 by lia. reflexivity.
  - destruct (lookup_lt_is_Some_2 frame k ltac:(lia)) as [w Hw].
    destruct (exchange_word k s w Hrecv ltac:(lia) Hw) as (s' & Hev & Hrecv').
    destruct (IH (S k) s' ltac:(lia) Hrecv')
      as (sP & sF & wl & tr & HP & Hlast & Hwl & Hfault & Hrun & Hsent & Hrcvd).
    exists sP, sF, wl, ((w, Z.of_nat (S k)) :: tr).
    split; [exact HP|]. split; [exact Hlast|]. split; [exact Hwl|].
    split; [exact Hfault|]. split; [|split].
    + change (S n + 3)%nat with (S (n + 3)).
      rewrite (spiSend_loop_step _ _ (Z.of_nat k) w (Z.of_nat (S k)) _ (Ok tt s'));
        [|lia|rewrite data_at_frame; exact Hw
         |unfold exchange, slave_bus; rewrite Hev; reflexivity].
      rewrite Hrun. reflexivity.
    + unfold sent in *. cbn [fmap list_fmap fst].
      change (list_fmap _ _ fst tr) with (tr.*1).
      rewrite Hsent. symmetry. apply drop_S. exact Hw.
    + unfold received in *. cbn [fmap list_fmap snd].
      change (list_fmap _ _ snd tr) with (tr.*2).
      rewrite Hrcvd, (seqZ_cons (Z.of_nat (S k))) by lia.
      replace (Z.succ (Z.of_nat (S k))) with (Z.of_nat (S (S k))) by lia.
      replace (Z.pred (SPIBUFSIZE - Z.of_nat (S k)))
        with (SPIBUFSIZE - Z.of_nat (S (S k))) by lia.
      reflexivity.
Qed.

(** The whole call. *)
Lemma exchange_frame :
  2 ≤ SPIBUFSIZE →
  ∃ sP sF w tr,
    published frame sP ∧
    last frame = Some w ∧ w ≠ BEGINSPI ∧
    bus_event w sP = (ENDSPI, Fault (RxBufOutOfBounds 1 65535) sF) ∧
    spiSend (Z.to_nat SPIBUFSIZE + 1) frame (Ok tt slave_init)
    = Returned tr (Fault (RxBufOutOfBounds 1 65535) sF) ∧
    sent tr = BEGINSPI :: frame ∧
    received tr = seqZ 0 SPIBUFSIZE ++ [ENDSPI].
Proof.
  intros H2. destruct (exchange_begin H2) as (s1 & Hev & Hrecv).
  destruct (exchange_rest (Z.to_nat SPIBUFSIZE - 2) 0 s1 ltac:(lia) Hrecv)
    as (sP & sF & wl & tr & HP & Hlast & Hwl & Hfault & Hrun & Hsent & Hrcvd).
  exists sP, sF, wl, ((BEGINSPI, 0) :: tr).
  split; [exact HP|]. split; [exact Hlast|]. split; [exact Hwl|].
  split; [exact Hfault|]. split; [|split].
  - replace (Z.to_nat SPIBUFSIZE + 1)%nat with (Z.to_nat SPIBUFSIZE - 2 + 3)%nat by lia.
    unfold spiSend. unfold exchange at 1, slave_bus at 1.
    rewrite Hev. change (Z.of_nat 0) with 0 in Hrun. rewrite Hrun. reflexivity.
  - unfold sent in *. cbn [fmap list_fmap fst].
    change (list_fmap _ _ fst tr) with (tr.*1). rewrite Hsent. reflexivity.
  - unfold received in *. cbn [fmap list_fmap snd].
    change (list_fmap _ _ snd tr) with (tr.*2). rewrite Hrcvd.
    rewrite (seqZ_cons 0) by lia.
    replace (Z.pred SPIBUFSIZE) with (SPIBUFSIZE - Z.of_nat 1) by lia. reflexivity.
Qed.

(** The same call on the target. The store of the frame's last word,
    through [spiRxBuf[1][65535]], falls on the last word of slot 0. *)
Lemma wrapped_index : 2 ≤ SPIBUFSIZE → flat_index 1 65535 = SPIBUFSIZE - 1.
Proof.
  intros H2. pose proof SPIBUFSIZE_fits as Hfit. unfold flat_index.
  replace (2 * (1 * SPIBUFSIZE + 65535)) with ((SPIBUFSIZE - 1) * 2 + 2 * 65536) by lia.
  rewrite Z_mod_plus_full, Z.mod_small by lia. apply Z.div_mul. lia.
Qed.

Lemma target_last_word sP w :
  2 ≤ SPIBUFSIZE → published frame sP → last frame = Some w → w ≠ BEGINSPI →
  fst (target_event w sP) = ENDSPI ∧
  slot 0 (snd (target_event w sP)) = Some frame ∧
  lastBuffer (snd (target_event w sP)) = 0 ∧
  currentBuffer (snd (target_event w sP)) = 1 ∧
  spiBufIdx (snd (target_event w sP)) = 2 ∧
  SPI1TX (snd (target_event w sP)) = 1.
Proof.
  intros H2 (_ & Hc & Hl & Hi & Ht & Hslot) Hlast Hw.
  pose proof SPIBUFSIZE_fits as Hfit.
  rewrite Hl in Hslot. unfold slot in Hslot. cbn in Hslot.
  rewrite last_lookup, frame_length in Hlast.
  rewrite target_event_cases. cbn [fst snd]. cbv zeta. rewrite Ht, Hc, Hl, Hi.
  destruct (Z.eqb_spec w BEGINSPI); [contradiction|].
  change (uint16 (1 - 2)) with 65535. change (uint16 (1 + 1)) with 2.
  rewrite (wrapped_index H2).
  destruct (Z.ltb_spec (SPIBUFSIZE - 1) (3 * SPIBUFSIZE)); [|lia].
  destruct (Z.gtb_spec 2 SPIBUFSIZE); [lia|].
  rewrite Z.div_small, Z.mod_small by lia.
  unfold slot. cbn [spiRxBuf currentBuffer lastBuffer spiBufIdx SPI1TX].
  split; [reflexivity|]. split; [|repeat split].
  - cbn [Z.ltb Z.compare Z.to_nat]. rewrite list_lookup_alter_eq, Hslot. cbn [fmap option_fmap option_map].
    f_equal. rewrite insert_app_r_alt by (rewrite length_take; lia).
    rewrite length_take_le by lia.
    replace (Z.to_nat (SPIBUFSIZE - 1) - (Z.to_nat SPIBUFSIZE - 1))%nat with 0%nat by lia.
    cbn [insert list_insert].
    replace (Init.Nat.pred (Z.to_nat SPIBUFSIZE)) with (Z.to_nat SPIBUFSIZE - 1)%nat in Hlast by lia.
    rewrite <- (take_S_r _ _ _ Hlast). apply take_ge. lia.
  - unfold next_word. destruct (Z.ltb_spec 1 SPIBUFSIZE); [reflexivity|lia].
Qed.

Lemma target_rest (n : nat) : ∀ (k : nat) s,
  (k + n + 2 = Z.to_nat SPIBUFSIZE)%nat → receiving frame k s →
  ∃ sP w tr,
    published frame sP ∧ last frame = Some w ∧ w ≠ BEGINSPI ∧
    spiSend_loop (n + 3) frame (Z.of_nat k) s
    = Returned tr (snd (target_event w sP)) ∧
    sent tr = drop k frame ∧
    received tr = seqZ (Z.of_nat (S k)) (SPIBUFSIZE - Z.of_nat (S k)) ++ [ENDSPI].
Proof.
  pose proof ENDSPI_no_index as Hend. pose proof SPIBUFSIZE_pos as Hpos.
  induction n as [|n IH]; intros k s Hk Hrecv.
  - destruct (lookup_lt_is_Some_2 frame k ltac:(lia)) as [w1 Hw1].
    destruct (lookup_lt_is_Some_2 frame (S k) ltac:(lia)) as [w2 Hw2].
    destruct (exchange_last_stored k s w1 Hrecv ltac:(lia) Hw1) as (sP & Hev1 & HP).
    apply target_of_bus_event in Hev1.
    assert (last frame = Some w2) as Hlast.
    { rewrite last_lookup, frame_length.
      replace (Init.Nat.pred (Z.to_nat SPIBUFSIZE)) with (S k) by lia. exact Hw2. }
    destruct (target_last_word sP w2 ltac:(lia) HP Hlast (frame_word _ _ Hw2))
      as (Hreply & _).
    exists sP, w2, [(w1, Z.of_nat (S k)); (w2, ENDSPI)].
    split; [exact HP|]. split; [exact Hlast|].
    split; [exact (frame_word _ _ Hw2)|]. split; [|split].
    + cbn [Nat.add].
      rewrite (spiSend_loop_step _ _ (Z.of_nat k) w1 (Z.of_nat (S k)) _ sP);
        [|lia|rewrite data_at_frame; exact Hw1
         |unfold exchange, target_bus; rewrite Hev1; reflexivity].
      rewrite (spiSend_loop_step _ _ (Z.of_nat (S k)) w2 ENDSPI _
                 (snd (target_event w2 sP)));
        [|lia|rewrite data_at_frame; exact Hw2
         |unfold exchange, target_bus; rewrite <- Hreply;
          destruct (target_event w2 sP); reflexivity].
      rewrite spiSend_loop_end. reflexivity.
    + unfold sent. cbn [fmap list_fmap fst].
      rewrite (drop_S _ _ _ Hw1), (drop_S _ _ _ Hw2), drop_ge by lia.
      reflexivity.
    + unfold received. cbn [fmap list_fmap snd].
      replace (SPIBUFSIZE - Z.of_nat (S k)) with 1 by lia. reflexivity.
  - destruct (lookup_lt_is_Some_2 frame k ltac:(lia)) as [w Hw].
    destruct (exchange_word k s w Hrecv ltac:(lia) Hw) as (s' & Hev & Hrecv').
    apply target_of_bus_event in Hev.
    destruct (IH (S k) s' ltac:(lia) Hrecv')
      as (sP & wl & tr & HP & Hlast & Hwl & Hrun & Hsent & Hrcvd).
    exists sP, wl, ((w, Z.of_nat (S k)) :: tr).
    split; [exact HP|]. split; [exact Hlast|]. split; [exact Hwl|].
    split; [|split].
    + change (S n + 3)%nat with (S (n + 3)).
      rewrite (spiSend_loop_step _ _ (Z.of_nat k) w (Z.of_nat (S k)) _ s');
        [|lia|rewrite data_at_frame; exact Hw
         |unfold exchange, target_bus; rewrite Hev; reflexivity].
      rewrite Hrun. reflexivity.
    + unfold sent in *. cbn [fmap list_fmap fst].
      change (list_fmap _ _ fst tr) with (tr.*1).
      rewrite Hsent. symmetry. apply drop_S. exact Hw.
    + unfold received in *. cbn [fmap list_fmap snd].
      change (list_fmap _ _ snd tr) with (tr.*2).
      rewrite Hrcvd, (seqZ_cons (Z.of_nat (S k))) by lia.
      replace (Z.succ (Z.of_nat (S k))) with (Z.of_nat (S (S k))) by lia.
      replace (Z.pred (SPIBUFSIZE - Z.of_nat (S k)))
        with (SPIBUFSIZE - Z.of_nat (S (S k))) by lia.
      reflexivity.
Qed.

Lemma target_frame :
  2 ≤ SPIBUFSIZE →
  ∃ tr s',
    spiSend (Z.to_nat SPIBUFSIZE + 1) frame slave_init = Returned tr s' ∧
    sent tr = BEGINSPI :: frame ∧
    received tr = seqZ 0 SPIBUFSIZE ++ [ENDSPI] ∧
    slot 0 s' = Some frame ∧
    lastBuffer s' = 0 ∧ currentBuffer s' = 1 ∧
    spiBufIdx s' = 2 ∧ SPI1TX s' = 1.
Proof.
  intros H2. destruct (exchange_begin H2) as (s1 & Hev & Hrecv).
  apply target_of_bus_event in Hev.
  destruct (target_rest (Z.to_nat SPIBUFSIZE - 2) 0 s1 ltac:(lia) Hrecv)
    as (sP & wl & tr & HP & Hlast & Hwl & Hrun & Hsent & Hrcvd).
  destruct (target_last_word sP wl H2 HP Hlast Hwl) as (_ & Hslot & Hl & Hc & Hi & Ht).
  exists ((BEGINSPI, 0) :: tr), (snd (target_event wl sP)).
  split; [|split; [|split; [|repeat split; assumption]]].
  - replace (Z.to_nat SPIBUFSIZE + 1)%nat with (Z.to_nat SPIBUFSIZE - 2 + 3)%nat by lia.
    unfold spiSend. unfold exchange at 1, target_bus at 1.
    rewrite Hev. change (Z.of_nat 0) with 0 in Hrun. rewrite Hrun. reflexivity.
  - unfold sent in *. cbn [fmap list_fmap fst].
    change (list_fmap _ _ fst tr) with (tr.*1). rewrite Hsent. reflexivity.
  - unfold received in *. cbn [fmap list_fmap snd].
    change (list_fmap _ _ snd tr) with (tr.*2). rewrite Hrcvd.
    rewrite (seqZ_cons 0) by lia.
    replace (Z.pred SPIBUFSIZE) with (SPIBUFSIZE - Z.of_nat 1) by lia. reflexivity.
Qed.

End Exchange.

(** ** C2: the store at cursor 1 *)

(** C2: whenever the handler is entered with the cursor at 1 and receives a
    word other than [BEGINSPI], the offset [spiBufIdx - 2], computed in
    [unsigned int] arithmetic, wraps to 65535, which is not below
    [SPIBUFSIZE], and the store misses the current slot. Such a state and
    input are reachable: the initial state is one, and with at least two
    words to a slot every exchange of a frame ends in one, on the bus event
    right after the handler has loaded [ENDSPI] (the round trip in which the
    sender reads [ENDSPI] and returns carries the frame's last word to the
    handler). *)
Theorem C2_store_outside_slot {D : apDefinitions} :
  apDefinitions_ok D →
  (∀ s w,
     spiBufIdx s = 1 → w ≠ BEGINSPI →
     uint16 (spiBufIdx s - 2) = 65535 ∧
     ¬ (uint16 (spiBufIdx s - 2) < SPIBUFSIZE) ∧
     in_bounds (currentBuffer s) (uint16 (spiBufIdx s - 2)) = false ∧
     ∃ s', snd (bus_event w s)
           = Fault (RxBufOutOfBounds (currentBuffer s) (uint16 (spiBufIdx s - 2))) s') ∧
  (reachable slave_init ∧ spiBufIdx slave_init = 1) ∧
  (2 ≤ SPIBUFSIZE →
   ∀ frame, length frame = Z.to_nat SPIBUFSIZE → payload frame →
     ∃ sP sF w tr,
       reachable sP ∧ SPI1TX sP = ENDSPI ∧ spiBufIdx sP = 1 ∧
       last frame = Some w ∧ w ≠ BEGINSPI ∧
       bus_event w sP
       = (ENDSPI,
          Fault (RxBufOutOfBounds (currentBuffer sP) (uint16 (spiBufIdx sP - 2))) sF) ∧
       spiSend (Z.to_nat SPIBUFSIZE + 1) frame (Ok tt slave_init)
       = Returned tr
           (Fault (RxBufOutOfBounds (currentBuffer sP) (uint16 (spiBufIdx sP - 2))) sF) ∧
       sent tr = BEGINSPI :: frame ∧
       received tr = seqZ 0 SPIBUFSIZE ++ [ENDSPI]).
Proof.
  intros Dok. split; [|split].
  - intros s w Hi Hw.
    destruct (store_at_cursor_1 s w Hi Hw) as (H16 & Hout & Hev).
    split; [exact H16|]. split.
    { rewrite H16. pose proof SPIBUFSIZE_fits. lia. }
    split; [exact Hout|]. rewrite Hev. eexists. reflexivity.
  - split; [apply reachable_init|reflexivity].
  - intros H2 frame Hlen Hpay.
    destruct (exchange_frame frame Hlen Hpay H2)
      as (sP & sF & w & tr & HP & Hlast & Hw & Hfault & Hrun & Hsent & Hrcvd).
    destruct HP as (Hr & Hc & _ & Hi & Ht & _).
    exists sP, sF, w, tr. rewrite Hc, Hi.
    change (uint16 (1 - 2)) with 65535.
    repeat split; assumption.
Qed.

Lemma C2_witness :
  ∃ sP sF tr,
    reachable (D:=defs4) sP ∧ SPI1TX sP = @ENDSPI defs4 ∧ spiBufIdx sP = 1 ∧
    bus_event (D:=defs4) 40 sP
    = (@ENDSPI defs4,
       Fault (RxBufOutOfBounds (currentBuffer sP) (uint16 (spiBufIdx sP - 2))) sF) ∧
    spiSend (D:=defs4) (bus:=slave_bus (D:=defs4)) 5 [10; 20; 30; 40]
      (Ok tt (slave_init (D:=defs4)))
    = Returned tr
        (Fault (RxBufOutOfBounds (currentBuffer sP) (uint16 (spiBufIdx sP - 2))) sF) ∧
    sent tr = [65535; 10; 20; 30; 40] ∧
    received tr = [0; 1; 2; 3; 48879].
Proof.
  destruct (C2_store_outside_slot (D:=defs4) defs4_ok) as (_ & _ & H).
  destruct (H ltac:(vm_compute; congruence) [10; 20; 30; 40] eq_refl)
    as (sP & sF & w & tr & Hr & Ht & Hi & Hlast & Hw & Hev & Hrun & Hsent & Hrcvd).
  { repeat constructor; vm_compute; congruence. }
  injection Hlast as <-.
  exists sP, sF, tr. repeat split; assumption.
Defined.

(** ** C1: the frame the receiver publishes *)

Section OneWordFrame.
Context {D : apDefinitions} {Dok : apDefinitions_ok D}.

(** With one word to a slot the payload word reaches the handler at cursor
    [SPIBUFSIZE + 1] and is stored in its row. *)
Lemma target_one_word x :
  SPIBUFSIZE = 1 → x ≠ BEGINSPI →
  ∃ s',
    spiSend 2 [x] slave_init = Returned [(BEGINSPI, 0); (x, ENDSPI)] s' ∧
    lastBuffer s' = 0 ∧ slot 0 s' = Some [x].
Proof.
  intros HS Hx. pose proof ENDSPI_no_index as Hend.
  assert (bus_event BEGINSPI slave_init
          = (0, Ok tt (mkSlave [[0]; [0]; [0]] 0 2 2 ENDSPI BEGINSPI false))) as Hev1.
  { rewrite bus_event_cases. cbv zeta. rewrite Z.eqb_refl.
    cbn [slave_init spiSlaveInit power_on set_SPI1IF set_SPI1TX spiRxBuf
         currentBuffer lastBuffer spiBufIdx SPI1TX].
    unfold next_word. rewrite HS. reflexivity. }
  assert (bus_event x (mkSlave [[0]; [0]; [0]] 0 2 2 ENDSPI BEGINSPI false)
          = (ENDSPI, Ok tt (mkSlave [[x]; [0]; [0]] 1 0 1 0 x false))) as Hev2.
  { rewrite bus_event_cases. cbv zeta.
    cbn [spiRxBuf currentBuffer lastBuffer spiBufIdx SPI1TX].
    destruct (Z.eqb_spec x BEGINSPI); [contradiction|].
    unfold in_bounds, next_word. rewrite HS. reflexivity. }
  apply target_of_bus_event in Hev1. apply target_of_bus_event in Hev2.
  eexists. split.
  - unfold spiSend. unfold exchange at 1, target_bus at 1. rewrite Hev1.
    assert (0 ≠ ENDSPI) as H0 by lia.
    rewrite (spiSend_loop_step 1 [x] 0 x ENDSPI _
               (mkSlave [[x]; [0]; [0]] 1 0 1 0 x false) H0);
      [|reflexivity|unfold exchange, target_bus; rewrite Hev2; reflexivity].
    rewrite spiSend_loop_end. reflexivity.
  - split; reflexivity.
Qed.

End OneWordFrame.

(** C1: for every frame of exactly [BUFSIZE] payload bytes, none of them a
    sentinel, sent by [spiSend] to a receiver in its initial state that
    handles one interrupt per round trip, [spiSend] returns, having
    transmitted [BEGINSPI] and the frame, and the slot named by [lastBuffer]
    then holds exactly the words of the frame in their order. (On the target;
    with two words or more to a slot the frame's last word is stored through
    [spiRxBuf[1][65535]], one event after the slot was published, see C2
    and C6.) *)
Theorem C1_frame_published {D : apDefinitions} (frame : list Z) :
  apDefinitions_ok D →
  length frame = Z.to_nat BUFSIZE → payload frame →
  ∃ tr s',
    spiSend (Z.to_nat BUFSIZE + 1) frame slave_init = Returned tr s' ∧
    sent tr = BEGINSPI :: frame ∧
    slot (lastBuffer s') s' = Some frame.
Proof.
  intros Dok Hlen Hpay. unfold BUFSIZE in *. pose proof SPIBUFSIZE_pos as Hpos.
  destruct (Z.eq_dec SPIBUFSIZE 1) as [H1|H1].
  - rewrite H1 in Hlen |- *. destruct frame as [|x [|y frame]]; try discriminate.
    assert (x ≠ BEGINSPI) as Hx.
    { unfold payload in Hpay. apply Forall_cons in Hpay as [(_ & Hx & _) _]. exact Hx. }
    destruct (target_one_word x H1 Hx) as (s' & Hrun & Hl & Hslot).
    exists [(BEGINSPI, 0); (x, ENDSPI)], s'.
    split; [exact Hrun|]. split; [reflexivity|]. rewrite Hl. exact Hslot.
  - destruct (target_frame frame Hlen Hpay ltac:(lia))
      as (tr & s' & Hrun & Hsent & _ & Hslot & Hl & _).
    exists tr, s'. split; [exact Hrun|]. split; [exact Hsent|].
    rewrite Hl. exact Hslot.
Qed.

Lemma C1_witness :
  ∃ tr s',
    spiSend (D:=defs4) (bus:=target_bus (D:=defs4)) 5 [10; 20; 30; 40]
      (slave_init (D:=defs4)) = Returned tr s' ∧
    sent tr = @BEGINSPI defs4 :: [10; 20; 30; 40] ∧
    slot (lastBuffer s') s' = Some [10; 20; 30; 40].
Proof.
  apply (C1_frame_published (D:=defs4) [10; 20; 30; 40] defs4_ok).
  - reflexivity.
  - repeat constructor; vm_compute; congruence.
Defined.

(** * Further properties of the handler *)

Section HandlerInvariants.
Context {D : apDefinitions}.

Lemma bus_event_pool w s s' :
  snd (bus_event w s) = Ok tt s' →
  spiRxBuf s' =
    if w =? BEGINSPI then spiRxBuf s
    else alter (λ r, <[Z.to_nat (uint16 (spiBufIdx s - 2)) := w]> r)
               (Z.to_nat (currentBuffer s)) (spiRxBuf s).
Proof.
  rewrite bus_event_cases. cbn [snd]. cbv zeta.
  destruct (w =? BEGINSPI); [intros [= <-]; reflexivity|].
  destruct (in_bounds _ _); [|discriminate].
  destruct (_ >? _); intros [= <-]; reflexivity.
Qed.

Lemma pool_shape_event w s s' :
  pool_shape s → snd (bus_event w s) = Ok tt s' → pool_shape s'.
Proof.
  intros [Hlen Hrows] Hev. unfold pool_shape.
  rewrite (bus_event_pool _ _ _ Hev).
  destruct (w =? BEGINSPI); [split; assumption|].
  split.
  - rewrite length_alter. exact Hlen.
  - apply Forall_alter; [exact Hrows|].
    intros row _ Hrow. rewrite length_insert. exact Hrow.
Qed.

Lemma uint16_range z : 0 ≤ uint16 z < 65536.
Proof. unfold uint16. apply Z.mod_pos_bound. lia. Qed.

(** In a 16-bit cursor, [spiBufIdx - 2] lands inside a row exactly for the
    cursors 2 to [SPIBUFSIZE + 1]. *)
Lemma offset_in_row idx :
  0 ≤ idx < 65536 → SPIBUFSIZE < 32768 →
  (0 ≤ uint16 (idx - 2) < SPIBUFSIZE ↔ 2 ≤ idx ≤ SPIBUFSIZE + 1).
Proof.
  intros Hidx Hfit. unfold uint16.
  destruct (Z.lt_ge_cases idx 2) as [Hlt|Hge].
  - replace ((idx - 2) mod 65536) with (idx + 65534); [lia|].
    apply (Z.mod_unique_pos _ _ (-1)); lia.
  - rewrite Z.mod_small by lia. lia.
Qed.

End HandlerInvariants.

Lemma pool_shape_reachable {D : apDefinitions} (s : slave) :
  reachable s → pool_shape s.
Proof.
  induction 1 as [|s w s' _ IH Hev].
  - split; [reflexivity|]. cbn. repeat constructor; apply length_replicate.
  - exact (pool_shape_event _ _ _ IH Hev).
Qed.

Lemma reachable_ranges {D : apDefinitions} (s : slave) :
  apDefinitions_ok D → reachable s →
  0 ≤ currentBuffer s ≤ 3 ∧
  0 ≤ lastBuffer s ≤ 2 ∧
  0 ≤ spiBufIdx s < 65536 ∧
  (SPI1TX s = ENDSPI ∨ 0 ≤ SPI1TX s < SPIBUFSIZE).
Proof.
  intros Dok. pose proof SPIBUFSIZE_pos as Hpos.
  induction 1 as [|s w s' _ (Hc & Hl & Hi & Ht) Hev].
  - cbn. lia.
  - destruct (bus_event_fields _ _ _ Hev) as (Hc' & Hl' & Hi' & Ht' & _ & Hin).
    rewrite Hc', Hl', Hi', Ht'. unfold completes in *.
    split; [|split; [|split]].
    + destruct (Z.eqb_spec w BEGINSPI); cbn [negb andb]; [lia|].
      destruct (_ >? _); [|lia].
      apply in_bounds_spec in Hin; [|assumption].
      unfold next_buffer, uint8. destruct (Z.gtb_spec (currentBuffer s) 2); [lia|].
      rewrite Z.mod_small; lia.
    + destruct (Z.eqb_spec w BEGINSPI); cbn [negb andb]; [lia|].
      destruct (_ >? _); [|lia].
      apply in_bounds_spec in Hin; [|assumption]. lia.
    + destruct (negb _ && _); [lia|]. apply uint16_range.
    + unfold next_word.
      destruct (Z.ltb_spec (spiBufIdx s) SPIBUFSIZE); [right; lia|].
      destruct (spiBufIdx s =? SPIBUFSIZE); [left; reflexivity|right; lia].
Qed.



(** X3: exactly when the handler's subscripts leave their row. Entered with
    a 16-bit cursor, an invocation stores through a subscript outside its row
    of [spiRxBuf[3][SPIBUFSIZE]] (where a run under C's rule ends) if and
    only if the word received is not [BEGINSPI] and either [currentBuffer] is
    not 0, 1 or 2, or the cursor is outside the range 2 to
    [SPIBUFSIZE + 1]. *)
Theorem X3_fault_condition {D : apDefinitions} (s : slave) (w : Z) :
  apDefinitions_ok D → 0 ≤ spiBufIdx s < 65536 →
  ((∃ f sf, snd (bus_event w s) = Fault f sf) ↔
   w ≠ BEGINSPI ∧
   ¬ (0 ≤ currentBuffer s ≤ 2 ∧ 2 ≤ spiBufIdx s ≤ SPIBUFSIZE + 1)).
Proof.
  intros Dok Hidx. pose proof SPIBUFSIZE_fits as Hfit. pose proof SPIBUFSIZE_pos.
  assert (SPIBUFSIZE < 32768) as Hlt by lia.
  pose proof (offset_in_row (spiBufIdx s) Hidx Hlt) as Hoff.
  rewrite bus_event_cases. cbn [snd]. cbv zeta.
  destruct (Z.eqb_spec w BEGINSPI) as [Hw|Hw].
  - split; [intros (f & sf & [=])|intros [Hc _]; contradiction].
  - destruct (in_bounds _ _) eqn:Hin.
    + apply in_bounds_spec in Hin. split.
      * destruct (_ >? _); intros (f & sf & [=]).
      * intros [_ Hn]. exfalso. apply Hn. lia.
    + split; [|eauto]. intros _. split; [exact Hw|].
      intros Hok. assert (in_bounds (currentBuffer s) (uint16 (spiBufIdx s - 2)) = true)
        as Hin' by (apply in_bounds_spec; lia).
      congruence.
Qed.

Lemma X3_witness :
  (∃ f sf, snd (bus_event (D:=defs4) 40 (set_spiBufIdx 6 (slave_init (D:=defs4))))
           = Fault f sf) ↔
  40 ≠ @BEGINSPI defs4 ∧
  ¬ (0 ≤ currentBuffer (set_spiBufIdx 6 (slave_init (D:=defs4))) ≤ 2 ∧
     2 ≤ spiBufIdx (set_spiBufIdx 6 (slave_init (D:=defs4))) ≤ @SPIBUFSIZE defs4 + 1).
Proof.
  apply (X3_fault_condition (D:=defs4)); [exact defs4_ok|vm_compute; split; congruence].
Defined.

(** X4: a stored word can be read back. When the handler, entered in a
    state reached through subscripts inside their rows, stores a payload word
    through subscripts inside its row, the cursor was between 2 and
    [SPIBUFSIZE + 1], the slot that was current holds the word at offset
    [spiBufIdx - 2] afterwards and is otherwise as before, and if the
    invocation completed the frame that slot is the one published. *)
Theorem X4_store_read_back {D : apDefinitions} (s s' : slave) (w : Z) :
  apDefinitions_ok D → reachable s → w ≠ BEGINSPI →
  snd (bus_event w s) = Ok tt s' →
  2 ≤ spiBufIdx s ≤ SPIBUFSIZE + 1 ∧
  ∃ row,
    slot (currentBuffer s) s = Some row ∧
    slot (currentBuffer s) s' = Some (<[Z.to_nat (spiBufIdx s - 2) := w]> row) ∧
    <[Z.to_nat (spiBufIdx s - 2) := w]> row !! Z.to_nat (spiBufIdx s - 2) = Some w ∧
    (completes s w = true → lastBuffer s' = currentBuffer s).
Proof.
  intros Dok Hs Hw Hev.
  pose proof SPIBUFSIZE_fits as Hfit. pose proof SPIBUFSIZE_pos as Hpos.
  destruct (reachable_ranges s Dok Hs) as (_ & _ & Hidx & _).
  destruct (bus_event_fields _ _ _ Hev) as (_ & Hl & _ & _ & _ & Hin).
  specialize (Hin Hw). apply in_bounds_spec in Hin as [Hcur Hoff].
  assert (SPIBUFSIZE < 32768) as Hlt by lia.
  pose proof (proj1 (offset_in_row _ Hidx Hlt) Hoff) as Hrange.
  assert (uint16 (spiBufIdx s - 2) = spiBufIdx s - 2) as H16
    by (unfold uint16; apply Z.mod_small; lia).
  split; [exact Hrange|].
  destruct (pool_shape_reachable s Hs) as [Hlen Hrows].
  destruct (lookup_lt_is_Some_2 (spiRxBuf s) (Z.to_nat (currentBuffer s)) ltac:(lia))
    as [row Hrow].
  pose proof (Forall_lookup_1 _ _ _ _ Hrows Hrow) as Hrowlen. cbn beta in Hrowlen.
  exists row. unfold slot.
  destruct (Z.ltb_spec (currentBuffer s) 0); [lia|].
  split; [exact Hrow|]. split; [|split].
  - rewrite (bus_event_pool _ _ _ Hev).
    destruct (Z.eqb_spec w BEGINSPI); [contradiction|].
    rewrite list_lookup_alter_eq, Hrow, H16. reflexivity.
  - apply list_lookup_insert_eq. lia.
  - intros Hcomp. rewrite Hl, Hcomp. reflexivity.
Qed.

Lemma X4_witness :
  ∃ s s', drive (D:=defs4) [65535; 10] (Ok tt (slave_init (D:=defs4))) = Ok tt s ∧
          snd (bus_event (D:=defs4) 20 s) = Ok tt s' ∧
          slot (currentBuffer s) s' = Some [10; 20; 0; 0] ∧
          [10; 20; 0; 0] !! 1%nat = Some 20.
Proof.
  eexists. eexists. split; [vm_compute; reflexivity|].
  split; [vm_compute; reflexivity|].
  match goal with
  | |- slot (currentBuffer ?a) ?b = _ ∧ _ =>
      assert (reachable (D:=defs4) a) as Hr by reached_by [65535; 10];
      destruct (X4_store_read_back (D:=defs4) a b 20 defs4_ok Hr)
        as (_ & row & Hrow & Hslot & Hread & _);
        [vm_compute; congruence|vm_compute; reflexivity|]
  end.
  vm_compute in Hrow. injection Hrow as <-.
  split; [exact Hslot|exact Hread].
Defined.

(** ** How many frames the handler can complete *)




(** ** The last word of a slot *)

Section LastWord.
Context {D : apDefinitions} {Dok : apDefinitions_ok D}.

Lemma last_word_clear_run ws : ∀ s s',
  2 ≤ SPIBUFSIZE → last_word_clear s →
  begin_at_cursor_1 ws (Ok tt s) = true →
  drive ws (Ok tt s) = Ok tt s' →
  last_word_clear s'.
Proof.
  pose proof SPIBUFSIZE_fits as Hfit.
  induction ws as [|w ws IH]; intros s s' H2 [Hidx Hrows] Hbeg Hrun.
  - cbn in Hrun. injection Hrun as <-. split; assumption.
  - rewrite drive_cons in Hrun. cbn [begin_at_cursor_1] in Hbeg.
    apply andb_true_iff in Hbeg as [Hw1 Hbeg].
    destruct (snd (bus_event w s)) as [[] s1|f s1] eqn:Hev;
      [|rewrite drive_fault in Hrun; discriminate].
    apply (IH s1 s' H2); [|exact Hbeg|exact Hrun].
    destruct (bus_event_fields _ _ _ Hev) as (_ & _ & Hi & _ & _ & Hin).
    pose proof (bus_event_pool _ _ _ Hev) as Hpool.
    unfold completes, uint16 in Hi.
    rewrite (Z.mod_small (spiBufIdx s + 1)) in Hi by lia.
    unfold last_word_clear. rewrite Hi, Hpool.
    destruct (Z.eqb_spec w BEGINSPI) as [Hw|Hw]; cbn [negb andb].
    + apply Z.eqb_eq in Hw1. split; [lia|exact Hrows].
    + apply in_bounds_spec in Hin as [_ Hoff]; [|exact Hw].
      apply (offset_in_row (spiBufIdx s)) in Hoff; [|lia|lia].
      split; [destruct (Z.gtb_spec (spiBufIdx s + 1) SPIBUFSIZE); lia|].
      apply Forall_alter; [exact Hrows|].
      intros row _ Hrow. rewrite list_lookup_insert_ne; [exact Hrow|].
      unfold uint16. rewrite Z.mod_small by lia. lia.
Qed.

End LastWord.

(** X6: the last word of a slot is never written by framed traffic. With at
    least two words to a slot, along every run from the initial state in
    which [BEGINSPI] arrives at cursor 1 only and no store misses the pool,
    the word at offset [SPIBUFSIZE - 1] of every slot is still the 0 it was
    initialised with: a slot never receives more than [SPIBUFSIZE - 1]
    words. *)
Theorem X6_last_word_never_stored {D : apDefinitions} (ws : list Z) (s : slave) :
  apDefinitions_ok D → 2 ≤ SPIBUFSIZE →
  begin_at_cursor_1 ws (Ok tt slave_init) = true →
  drive ws (Ok tt slave_init) = Ok tt s →
  ∀ r row, slot r s = Some row → row !! (Z.to_nat SPIBUFSIZE - 1)%nat = Some 0.
Proof.
  intros Dok H2 Hbeg Hrun r row Hslot.
  assert (last_word_clear slave_init) as Hinit.
  { split; [cbn; lia|]. cbn. repeat constructor; apply lookup_replicate_2; lia. }
  destruct (last_word_clear_run ws _ _ H2 Hinit Hbeg Hrun) as [_ Hrows].
  unfold slot in Hslot. destruct (r <? 0); [discriminate|].
  exact (Forall_lookup_1 _ _ _ _ Hrows Hslot).
Qed.

Lemma X6_witness :
  ∃ s, drive (D:=defs4) [65535; 10; 20; 30; 65535; 40; 50; 60]
         (Ok tt (slave_init (D:=defs4))) = Ok tt s ∧
       slot 0 s = Some [10; 20; 30; 0] ∧ slot 1 s = Some [40; 50; 60; 0] ∧
       [40; 50; 60; 0] !! 3%nat = Some 0.
Proof.
  eexists. split; [vm_compute; reflexivity|].
  split; [vm_compute; reflexivity|]. split; [vm_compute; reflexivity|].
  refine (X6_last_word_never_stored (D:=defs4)
            [65535; 10; 20; 30; 65535; 40; 50; 60] _ defs4_ok _ _ _ 1 _ _);
    vm_compute; first [reflexivity|congruence].
Defined.

(** * Further properties of the sender *)

Section SenderEdges.
Context {D : apDefinitions} {B : Type} {bus : Bus B}.

Lemma logged_Stopped e (o : outcome B) why tr b :
  logged e o = Stopped why tr b ↔ ∃ tr0, o = Stopped why tr0 b ∧ tr = e :: tr0.
Proof.
  destruct o as [tr0 b0|why0 tr0 b0|]; cbn; split.
  - discriminate.
  - intros (tr1 & [=] & _).
  - intros [= <- <- <-]. eauto.
  - intros (tr1 & [= -> -> ->] & ->). reflexivity.
  - discriminate.
  - intros (tr1 & [=] & _).
Qed.

Lemma logged_OutOfFuel e (o : outcome B) : o = OutOfFuel → logged e o = OutOfFuel.
Proof. intros ->. reflexivity. Qed.

(** Where the loop stops on an index outside the frame. *)
Lemma spiSend_loop_out_of_frame fuel : ∀ frame idx b i tr b',
  spiSend_loop fuel frame idx b = Stopped (FrameOutOfBounds i) tr b' →
  ∃ idxs, idx :: received tr = idxs ++ [i] ∧
          Forall (λ j, j ≠ ENDSPI ∧ is_Some (data_at frame j)) idxs ∧
          i ≠ ENDSPI ∧ data_at frame i = None.
Proof.
  induction fuel as [|fuel IH]; intros frame idx b i tr b' Hrun; [discriminate|].
  cbn [spiSend_loop] in Hrun.
  destruct (Z.eqb_spec idx ENDSPI) as [->|Hne]; [discriminate|].
  destruct (data_at frame idx) as [w|] eqn:Hw.
  - destruct (exchange w b) as [[r b1]|]; [|discriminate].
    apply logged_Stopped in Hrun as (tr0 & Hrun & ->).
    destruct (IH _ _ _ _ _ _ Hrun) as (idxs & Heq & Hall & Hi & Hnone).
    exists (idx :: idxs). unfold received in *. cbn [fmap list_fmap snd].
    change (list_fmap _ _ snd tr0) with (tr0.*2). rewrite Heq.
    split; [reflexivity|]. split; [|split; assumption].
    constructor; [|exact Hall]. split; [exact Hne|]. rewrite Hw. eauto.
  - injection Hrun as <- <- <-. exists []. repeat split; try constructor; assumption.
Qed.

(** A peer that keeps asking for words of the frame keeps the loop going. *)
Lemma spiSend_loop_spins (P : B → Prop) frame :
  (∀ b w, P b → ∃ r b', exchange w b = Some (r, b') ∧ r ≠ ENDSPI ∧
                         is_Some (data_at frame r) ∧ P b') →
  ∀ fuel idx b, idx ≠ ENDSPI → is_Some (data_at frame idx) → P b →
    spiSend_loop fuel frame idx b = OutOfFuel.
Proof.
  intros Hpeer. induction fuel as [|fuel IH]; intros idx b Hne [w Hw] HP;
    [reflexivity|].
  cbn [spiSend_loop]. destruct (Z.eqb_spec idx ENDSPI); [contradiction|].
  rewrite Hw. destruct (Hpeer b w HP) as (r & b1 & Hx & Hr & Hsome & HP1).
  rewrite Hx. apply logged_OutOfFuel. apply IH; assumption.
Qed.

End SenderEdges.

(** X7: [spiSend] indexes the frame with whatever the peer sends. If a call
    stops because an index is outside the frame it was given, that index is
    the last word received, it is not [ENDSPI], every index received before
    it was inside the frame and not [ENDSPI] either, and the first word
    transmitted was [BEGINSPI]. *)
Theorem X7_unchecked_index {D : apDefinitions} {B : Type} {bus : Bus B}
    (fuel : nat) (frame : list Z) (b b' : B) (i : Z) (tr : list (Z * Z)) :
  spiSend fuel frame b = Stopped (FrameOutOfBounds i) tr b' →
  ∃ idxs ws,
    received tr = idxs ++ [i] ∧
    sent tr = BEGINSPI :: ws ∧
    Forall (λ j, j ≠ ENDSPI ∧ is_Some (data_at frame j)) idxs ∧
    i ≠ ENDSPI ∧ data_at frame i = None.
Proof.
  unfold spiSend. intros Hrun.
  destruct (exchange BEGINSPI b) as [[r b1]|]; [|discriminate].
  apply logged_Stopped in Hrun as (tr0 & Hrun & ->).
  destruct (spiSend_loop_out_of_frame _ _ _ _ _ _ _ Hrun)
    as (idxs & Heq & Hall & Hi & Hnone).
  exists idxs, (sent tr0). unfold received, sent in *. cbn [fmap list_fmap fst snd].
  change (list_fmap _ _ snd tr0) with (tr0.*2).
  change (list_fmap _ _ fst tr0) with (tr0.*1).
  repeat split; assumption.
Qed.

Lemma X7_witness :
  ∃ idxs ws,
    received [(65535, 0); (10, 1); (20, 7)] = idxs ++ [7] ∧
    sent [(65535, 0); (10, 1); (20, 7)] = @BEGINSPI defs4 :: ws ∧
    Forall (λ j, j ≠ @ENDSPI defs4 ∧ is_Some (data_at [10; 20; 30] j)) idxs ∧
    7 ≠ @ENDSPI defs4 ∧ data_at [10; 20; 30] 7 = None.
Proof.
  apply (X7_unchecked_index (D:=defs4) (bus:=script_bus) 9 [10; 20; 30]
           [0; 1; 7; 2] [2]).
  vm_compute. reflexivity.
Defined.

(** X8: [spiSend] has no way out but [ENDSPI]. Against a peer that answers
    every round trip with an index inside the frame and never with [ENDSPI],
    the call is still in its loop after any number of round trips. *)
Theorem X8_no_return_without_ENDSPI {D : apDefinitions} {B : Type} {bus : Bus B}
    (P : B → Prop) (frame : list Z) :
  (∀ b w, P b → ∃ r b', exchange w b = Some (r, b') ∧ r ≠ ENDSPI ∧
                         is_Some (data_at frame r) ∧ P b') →
  ∀ fuel b, P b → spiSend fuel frame b = OutOfFuel.
Proof.
  intros Hpeer fuel b HP. unfold spiSend.
  destruct (Hpeer b BEGINSPI HP) as (r & b1 & Hx & Hr & Hsome & HP1).
  rewrite Hx. apply logged_OutOfFuel.
  apply (spiSend_loop_spins P); assumption.
Qed.

Lemma X8_witness :
  spiSend (D:=defs4) (bus:=repeating_bus 1) 1000 [10; 20; 30; 40] tt = OutOfFuel.
Proof.
  apply (X8_no_return_without_ENDSPI (D:=defs4) (bus:=repeating_bus 1) (λ _, True));
    [|exact I].
  intros b w _. exists 1, tt. repeat split; [vm_compute; congruence|].
  exists 20. reflexivity.
Defined.

(** ** The sender against the receiver *)

Section SenderAgainstSlave.
Context {D : apDefinitions} {Dok : apDefinitions_ok D}.


End SenderAgainstSlave.



(** X10: where the first call leaves the receiver. With at least two words
    to a slot, for every frame of [SPIBUFSIZE] payload bytes sent to a
    receiver in its initial state, [spiSend] is asked for the indices 0 to
    [SPIBUFSIZE - 1] in order and then receives [ENDSPI]; when it returns
    slot 0 is published and holds the frame, but the receiver is not back in
    its initial state: the cursor is 2 and SPI1BUF holds 1, where they were 1
    and 0, so the next call finds the receiver one event ahead. *)
Theorem X10_after_first_call {D : apDefinitions} (frame : list Z) :
  apDefinitions_ok D → 2 ≤ SPIBUFSIZE →
  length frame = Z.to_nat SPIBUFSIZE → payload frame →
  ∃ tr s',
    spiSend (Z.to_nat SPIBUFSIZE + 1) frame slave_init = Returned tr s' ∧
    received tr = seqZ 0 SPIBUFSIZE ++ [ENDSPI] ∧
    lastBuffer s' = 0 ∧ slot (lastBuffer s') s' = Some frame ∧
    currentBuffer s' = 1 ∧
    spiBufIdx s' = 2 ∧ SPI1TX s' = 1 ∧
    spiBufIdx s' ≠ spiBufIdx slave_init ∧ SPI1TX s' ≠ SPI1TX slave_init.
Proof.
  intros Dok H2 Hlen Hpay.
  destruct (target_frame frame Hlen Hpay H2)
    as (tr & s' & Hrun & _ & Hrcvd & Hslot & Hl & Hc & Hi & Ht).
  exists tr, s'. rewrite Hl, Hi, Ht. cbn.
  repeat split; try assumption; lia.
Qed.

Lemma X10_witness :
  ∃ tr s',
    spiSend (D:=defs4) (bus:=target_bus (D:=defs4)) 5 [11; 22; 33; 44]
      (slave_init (D:=defs4)) = Returned tr s' ∧
    received tr = seqZ 0 4 ++ [@ENDSPI defs4] ∧
    lastBuffer s' = 0 ∧ slot (lastBuffer s') s' = Some [11; 22; 33; 44] ∧
    currentBuffer s' = 1 ∧
    spiBufIdx s' = 2 ∧ SPI1TX s' = 1 ∧
    spiBufIdx s' ≠ spiBufIdx (slave_init (D:=defs4)) ∧
    SPI1TX s' ≠ SPI1TX (slave_init (D:=defs4)).
Proof.
  apply (X10_after_first_call (D:=defs4) [11; 22; 33; 44] defs4_ok).
  - vm_compute. congruence.
  - reflexivity.
  - repeat constructor; vm_compute; congruence.
Defined.

(** X11: one word to a slot. When [SPIBUFSIZE] is 1, [BEGINSPI] itself
    reaches the handler at cursor [SPIBUFSIZE], the payload word reaches it at
    cursor [SPIBUFSIZE + 1] (the branch that writes 0), and the exchange is
    complete: [spiSend] returns after two round trips, slot 0 is published
    holding the word, and the cursor and SPI1BUF are back at their initial
    values 1 and 0. *)
Theorem X11_one_word_slot {D : apDefinitions} (x : Z) :
  apDefinitions_ok D → SPIBUFSIZE = 1 → x ≠ BEGINSPI →
  ∃ s',
    spiSend 2 [x] (Ok tt slave_init)
    = Returned [(BEGINSPI, 0); (x, ENDSPI)] (Ok tt s') ∧
    lastBuffer s' = 0 ∧ slot (lastBuffer s') s' = Some [x] ∧
    currentBuffer s' = 1 ∧
    spiBufIdx s' = spiBufIdx slave_init ∧ SPI1TX s' = SPI1TX slave_init.
Proof.
  intros Dok HS Hx. pose proof ENDSPI_no_index as Hend.
  assert (bus_event BEGINSPI slave_init
          = (0, Ok tt (mkSlave [[0]; [0]; [0]] 0 2 2 ENDSPI BEGINSPI false))) as Hev1.
  { rewrite bus_event_cases. cbv zeta. rewrite Z.eqb_refl.
    cbn [slave_init spiSlaveInit power_on set_SPI1IF set_SPI1TX spiRxBuf
         currentBuffer lastBuffer spiBufIdx SPI1TX].
    unfold next_word. rewrite HS. reflexivity. }
  assert (bus_event x (mkSlave [[0]; [0]; [0]] 0 2 2 ENDSPI BEGINSPI false)
          = (ENDSPI, Ok tt (mkSlave [[x]; [0]; [0]] 1 0 1 0 x false))) as Hev2.
  { rewrite bus_event_cases. cbv zeta.
    cbn [spiRxBuf currentBuffer lastBuffer spiBufIdx SPI1TX].
    destruct (Z.eqb_spec x BEGINSPI); [contradiction|].
    unfold in_bounds, next_word. rewrite HS. reflexivity. }
  eexists. split.
  - unfold spiSend. unfold exchange at 1, slave_bus at 1. rewrite Hev1.
    assert (0 ≠ ENDSPI) as H0 by lia.
    rewrite (spiSend_loop_step 1 [x] 0 x ENDSPI _
               (Ok tt (mkSlave [[x]; [0]; [0]] 1 0 1 0 x false)) H0);
      [|reflexivity|unfold exchange, slave_bus; rewrite Hev2; reflexivity].
    rewrite spiSend_loop_end. reflexivity.
  - repeat split; reflexivity.
Qed.

Lemma X11_witness :
  ∃ s',
    spiSend (D:=defs1) (bus:=slave_bus (D:=defs1)) 2 [77]
      (Ok tt (slave_init (D:=defs1)))
    = Returned [(65535, 0); (77, 48879)] (Ok tt s') ∧
    lastBuffer s' = 0 ∧ slot (lastBuffer s') s' = Some [77] ∧
    currentBuffer s' = 1 ∧
    spiBufIdx s' = spiBufIdx (slave_init (D:=defs1)) ∧
    SPI1TX s' = SPI1TX (slave_init (D:=defs1)).
Proof.
  apply (X11_one_word_slot (D:=defs1) 77).
  - split; cbn; lia.
  - reflexivity.
  - vm_compute. congruence.
Defined.

(** * Receiving a frame *)

Section FrameReception.
Context {D : apDefinitions} {Dok : apDefinitions_ok D}.

(** One payload word at cursor [k + 2], with room left in the row. *)
Lemma payload_event k s row w :
  spiBufIdx s = Z.of_nat k + 2 → Z.of_nat k + 2 ≤ SPIBUFSIZE →
  0 ≤ currentBuffer s ≤ 2 → slot (currentBuffer s) s = Some row →
  w ≠ BEGINSPI →
  ∃ s1, snd (bus_event w s) = Ok tt s1 ∧
        slot (currentBuffer s) s1 = Some (<[k := w]> row) ∧
        (∀ r, r ≠ currentBuffer s → slot r s1 = slot r s) ∧
        completes s w = (Z.of_nat k + 3 >? SPIBUFSIZE) ∧
        (if Z.of_nat k + 3 >? SPIBUFSIZE
         then spiBufIdx s1 = 1 ∧ lastBuffer s1 = currentBuffer s ∧
              currentBuffer s1 = currentBuffer s + 1
         else spiBufIdx s1 = Z.of_nat k + 3 ∧ lastBuffer s1 = lastBuffer s ∧
              currentBuffer s1 = currentBuffer s).
Proof.
  intros Hi Hk Hc Hrow Hw. pose proof SPIBUFSIZE_fits as Hfit.
  assert (uint16 (spiBufIdx s - 2) = Z.of_nat k) as H16.
  { rewrite Hi. unfold uint16. rewrite Z.mod_small; lia. }
  assert (uint16 (spiBufIdx s + 1) = Z.of_nat k + 3) as H16'.
  { rewrite Hi. unfold uint16. rewrite Z.mod_small; lia. }
  assert (in_bounds (currentBuffer s) (uint16 (spiBufIdx s - 2)) = true) as Hin.
  { apply in_bounds_spec. rewrite H16. lia. }
  assert (∃ s1, snd (bus_event w s) = Ok tt s1) as [s1 Hev].
  { rewrite bus_event_cases. cbn [snd]. cbv zeta.
    destruct (Z.eqb_spec w BEGINSPI); [contradiction|]. rewrite Hin.
    destruct (_ >? _); eauto. }
  exists s1. split; [exact Hev|].
  destruct (bus_event_fields _ _ _ Hev) as (Hc1 & Hl1 & Hi1 & _ & Hs1 & _).
  pose proof (bus_event_pool _ _ _ Hev) as Hpool.
  assert (completes s w = (Z.of_nat k + 3 >? SPIBUFSIZE)) as Hcomp.
  { unfold completes. destruct (Z.eqb_spec w BEGINSPI); [contradiction|].
    rewrite H16'. reflexivity. }
  rewrite Hcomp in Hc1, Hl1, Hi1.
  split; [|split; [exact Hs1|split; [exact Hcomp|]]].
  - unfold slot in *. destruct (Z.ltb_spec (currentBuffer s) 0); [lia|].
    rewrite Hpool. destruct (Z.eqb_spec w BEGINSPI); [contradiction|].
    rewrite list_lookup_alter_eq, Hrow, H16, Nat2Z.id. reflexivity.
  - destruct (Z.of_nat k + 3 >? SPIBUFSIZE).
    + repeat split; try assumption. rewrite Hc1. unfold next_buffer, uint8.
      destruct (Z.gtb_spec (currentBuffer s) 2); [lia|]. apply Z.mod_small. lia.
    + rewrite <- H16'. repeat split; assumption.
Qed.

(** The payload words of a frame, from the [k]-th on. *)
Lemma payload_run ws : ∀ k s row,
  ws ≠ [] →
  spiBufIdx s = Z.of_nat k + 2 →
  0 ≤ currentBuffer s ≤ 2 → slot (currentBuffer s) s = Some row →
  length row = Z.to_nat SPIBUFSIZE →
  (k + length ws = Z.to_nat SPIBUFSIZE - 1)%nat →
  Forall (λ w, w ≠ BEGINSPI) ws →
  ∃ s', drive ws (Ok tt s) = Ok tt s' ∧
        completions ws (Ok tt s) = 1%nat ∧
        spiBufIdx s' = 1 ∧ lastBuffer s' = currentBuffer s ∧
        currentBuffer s' = currentBuffer s + 1 ∧
        slot (currentBuffer s) s'
        = Some (take k row ++ ws ++ drop (Z.to_nat SPIBUFSIZE - 1) row) ∧
        (∀ r, r ≠ currentBuffer s → slot r s' = slot r s).
Proof.
  induction ws as [|w ws IH]; intros k s row Hne Hi Hc Hrow Hlen Hk Hall;
    [contradiction|].
  apply Forall_cons in Hall as [Hw Hall]. cbn [length] in Hk.
  destruct (payload_event k s row w Hi ltac:(lia) Hc Hrow Hw)
    as (s1 & Hev & Hslot1 & Hothers1 & Hcomp & Hfields).
  rewrite drive_cons. cbn [completions]. rewrite Hev, Hcomp.
  destruct ws as [|w2 ws].
  - cbn [length] in Hk.
    destruct (Z.gtb_spec (Z.of_nat k + 3) SPIBUFSIZE); [|lia].
    destruct Hfields as (Hi1 & Hl1 & Hc1).
    exists s1. cbn [drive completions].
    repeat split; try assumption.
    rewrite Hslot1, insert_take_drop by lia.
    replace (Z.to_nat SPIBUFSIZE - 1)%nat with (S k) by lia. reflexivity.
  - cbn [length] in Hk.
    destruct (Z.gtb_spec (Z.of_nat k + 3) SPIBUFSIZE); [lia|].
    destruct Hfields as (Hi1 & Hl1 & Hc1).
    destruct (IH (S k) s1 (<[k := w]> row)) as (s' & Hrun & Hcnt & Hi' & Hl' & Hc' & Hslot' & Hothers');
      [discriminate|lia|lia|rewrite Hc1; exact Hslot1|rewrite length_insert; exact Hlen
      |cbn [length]; lia|exact Hall|].
    exists s'. rewrite Hc1 in *.
    split; [exact Hrun|]. split; [rewrite Hcnt; reflexivity|].
    split; [exact Hi'|]. split; [exact Hl'|]. split; [exact Hc'|]. split.
    + rewrite Hslot'.
      rewrite (take_S_r _ _ w) by (apply list_lookup_insert_eq; lia).
      rewrite take_insert_ge, drop_insert_lt by lia.
      rewrite <- app_assoc. reflexivity.
    + intros r Hr. rewrite Hothers' by exact Hr. apply Hothers1. exact Hr.
Qed.

(** A whole frame: [BEGINSPI] at cursor 1, then [SPIBUFSIZE - 1] payload
    words. *)
Lemma frame_reception s row ws :
  2 ≤ SPIBUFSIZE → spiBufIdx s = 1 →
  0 ≤ currentBuffer s ≤ 2 → slot (currentBuffer s) s = Some row →
  length row = Z.to_nat SPIBUFSIZE →
  length ws = (Z.to_nat SPIBUFSIZE - 1)%nat →
  Forall (λ w, w ≠ BEGINSPI) ws →
  ∃ s', drive (BEGINSPI :: ws) (Ok tt s) = Ok tt s' ∧
        completions (BEGINSPI :: ws) (Ok tt s) = 1%nat ∧
        spiBufIdx s' = 1 ∧ lastBuffer s' = currentBuffer s ∧
        currentBuffer s' = currentBuffer s + 1 ∧
        slot (lastBuffer s') s' = Some (ws ++ drop (Z.to_nat SPIBUFSIZE - 1) row) ∧
        (∀ r, r ≠ currentBuffer s → slot r s' = slot r s).
Proof.
  intros H2 Hi Hc Hrow Hlen Hws Hall.
  assert (snd (bus_event BEGINSPI s)
          = Ok tt (mkSlave (spiRxBuf s) (currentBuffer s) (lastBuffer s) 2
                     (next_word 1) BEGINSPI false)) as Hev.
  { rewrite bus_event_cases. cbn [snd]. cbv zeta. rewrite Z.eqb_refl, Hi. reflexivity. }
  set (s1 := mkSlave _ _ _ _ _ _ _) in Hev.
  destruct (payload_run ws 0 s1 row) as (s' & Hrun & Hcnt & Hi' & Hl' & Hc' & Hslot' & Hothers');
    [intros ->; cbn in Hws; lia|reflexivity|exact Hc|exact Hrow|exact Hlen
    |cbn; lia|exact Hall|].
  exists s'. rewrite drive_cons, Hev. cbn [completions]. rewrite Hev.
  assert (completes s BEGINSPI = false) as ->
    by (unfold completes; rewrite Z.eqb_refl; reflexivity).
  change (currentBuffer s1) with (currentBuffer s) in *.
  split; [exact Hrun|]. split; [rewrite Hcnt; reflexivity|].
  split; [exact Hi'|]. split; [exact Hl'|]. split; [exact Hc'|]. split.
  - rewrite Hl'. exact Hslot'.
  - exact Hothers'.
Qed.

End FrameReception.

(** X12: what the handler makes of a frame. With at least two words to a
    slot, entered at cursor 1 with [currentBuffer] naming a slot of the pool,
    the handler receiving [BEGINSPI] and then [SPIBUFSIZE - 1] words other
    than [BEGINSPI] completes exactly one frame: it stores the words in order
    from offset 0 of the current slot, leaves that slot's last word and every
    other slot as they were, publishes the slot through [lastBuffer], moves
    [currentBuffer] to the next index and puts the cursor back to 1. *)
Theorem X12_frame_reception {D : apDefinitions} (s : slave) (row ws : list Z) :
  apDefinitions_ok D → 2 ≤ SPIBUFSIZE → spiBufIdx s = 1 →
  0 ≤ currentBuffer s ≤ 2 → slot (currentBuffer s) s = Some row →
  length row = Z.to_nat SPIBUFSIZE →
  length ws = (Z.to_nat SPIBUFSIZE - 1)%nat →
  Forall (λ w, w ≠ BEGINSPI) ws →
  ∃ s', drive (BEGINSPI :: ws) (Ok tt s) = Ok tt s' ∧
        completions (BEGINSPI :: ws) (Ok tt s) = 1%nat ∧
        spiBufIdx s' = 1 ∧ lastBuffer s' = currentBuffer s ∧
        currentBuffer s' = currentBuffer s + 1 ∧
        slot (lastBuffer s') s' = Some (ws ++ drop (Z.to_nat SPIBUFSIZE - 1) row) ∧
        (∀ r, r ≠ currentBuffer s → slot r s' = slot r s).
Proof. intros Dok. apply frame_reception. Qed.

Lemma X12_witness :
  ∃ s', drive (D:=defs4) [65535; 10; 20; 30] (Ok tt (slave_init (D:=defs4))) = Ok tt s' ∧
        completions (D:=defs4) [65535; 10; 20; 30] (Ok tt (slave_init (D:=defs4))) = 1%nat ∧
        spiBufIdx s' = 1 ∧ lastBuffer s' = 0 ∧ currentBuffer s' = 0 + 1 ∧
        slot (lastBuffer s') s' = Some ([10; 20; 30] ++ drop 3 [0; 0; 0; 0]) ∧
        (∀ r, r ≠ 0 → slot r s' = slot r (slave_init (D:=defs4))).
Proof.
  apply (X12_frame_reception (D:=defs4) (slave_init (D:=defs4)) [0; 0; 0; 0]
           [10; 20; 30] defs4_ok).
  - vm_compute. congruence.
  - reflexivity.
  - vm_compute. split; congruence.
  - reflexivity.
  - reflexivity.
  - reflexivity.
  - repeat constructor; vm_compute; congruence.
Defined.

(** ** Three frames in a row *)

Section ThreeFrames.
Context {D : apDefinitions} {Dok : apDefinitions_ok D}.

Lemma drive_app ws1 : ∀ ws2 st, drive (ws1 ++ ws2) st = drive ws2 (drive ws1 st).
Proof.
  induction ws1 as [|w ws1 IH]; intros ws2 st.
  - destruct st; reflexivity.
  - destruct st as [[] s|f s].
    + cbn [app]. rewrite !drive_cons. apply IH.
    + cbn [app drive]. rewrite drive_fault. reflexivity.
Qed.

Lemma fresh_slot r :
  0 ≤ r ≤ 2 → slot r slave_init = Some (replicate (Z.to_nat SPIBUFSIZE) 0).
Proof.
  intros Hr. unfold slot. destruct (Z.ltb_spec r 0); [lia|].
  cbn [slave_init spiSlaveInit power_on set_SPI1IF set_SPI1TX spiRxBuf].
  apply lookup_replicate_2. lia.
Qed.

Lemma fresh_tail :
  2 ≤ SPIBUFSIZE →
  drop (Z.to_nat SPIBUFSIZE - 1) (replicate (Z.to_nat SPIBUFSIZE) 0) = [0].
Proof.
  intros H2. rewrite drop_replicate.
  replace (Z.to_nat SPIBUFSIZE - (Z.to_nat SPIBUFSIZE - 1))%nat with 1%nat by lia.
  reflexivity.
Qed.

Lemma three_frames f1 f2 f3 :
  2 ≤ SPIBUFSIZE →
  Forall (λ f, length f = (Z.to_nat SPIBUFSIZE - 1)%nat ∧
               Forall (λ w, w ≠ BEGINSPI) f) [f1; f2; f3] →
  ∃ s, drive ((BEGINSPI :: f1) ++ (BEGINSPI :: f2) ++ (BEGINSPI :: f3))
         (Ok tt slave_init) = Ok tt s ∧
       slot 0 s = Some (f1 ++ [0]) ∧
       slot 1 s = Some (f2 ++ [0]) ∧
       slot 2 s = Some (f3 ++ [0]) ∧
       lastBuffer s = 2 ∧ currentBuffer s = 3 ∧ spiBufIdx s = 1.
Proof.
  intros H2 Hfs.
  apply Forall_cons in Hfs as [[Hl1 Hp1] Hfs].
  apply Forall_cons in Hfs as [[Hl2 Hp2] Hfs].
  apply Forall_cons in Hfs as [[Hl3 Hp3] _].
  pose proof (length_replicate (Z.to_nat SPIBUFSIZE) 0) as Hlen.
  destruct (frame_reception slave_init _ f1 H2 eq_refl ltac:(cbn; lia)
              (fresh_slot 0 ltac:(lia)) Hlen Hl1 Hp1)
    as (s1 & Hrun1 & _ & Hi1 & Hlast1 & Hc1 & Hslot1 & Ho1).
  change (currentBuffer slave_init) with 0 in *. cbn [Z.add] in Hc1.
  rewrite Hlast1, (fresh_tail H2) in Hslot1.
  assert (slot (currentBuffer s1) s1 = Some (replicate (Z.to_nat SPIBUFSIZE) 0)) as Hrow1
    by (rewrite Hc1, Ho1 by lia; apply fresh_slot; lia).
  destruct (frame_reception s1 _ f2 H2 Hi1 ltac:(lia) Hrow1 Hlen Hl2 Hp2)
    as (s2 & Hrun2 & _ & Hi2 & Hlast2 & Hc2 & Hslot2 & Ho2).
  rewrite Hc1 in *. cbn [Z.add Pos.add] in Hc2.
  rewrite Hlast2, (fresh_tail H2) in Hslot2.
  assert (slot (currentBuffer s2) s2 = Some (replicate (Z.to_nat SPIBUFSIZE) 0)) as Hrow2
    by (rewrite Hc2, Ho2, Ho1 by lia; apply fresh_slot; lia).
  destruct (frame_reception s2 _ f3 H2 Hi2 ltac:(lia) Hrow2 Hlen Hl3 Hp3)
    as (s3 & Hrun3 & _ & Hi3 & Hlast3 & Hc3 & Hslot3 & Ho3).
  rewrite Hc2 in *. cbn [Z.add Pos.add Pos.succ] in Hc3.
  rewrite Hlast3, (fresh_tail H2) in Hslot3.
  exists s3. rewrite !drive_app, Hrun1, Hrun2, Hrun3.
  split; [reflexivity|].
  split; [rewrite Ho3, Ho2 by lia; exact Hslot1|].
  split; [rewrite Ho3 by lia; exact Hslot2|].
  split; [exact Hslot3|]. split; [exact Hlast3|]. split; [exact Hc3|exact Hi3].
Qed.

End ThreeFrames.

(** X13: three frames fill the pool. With at least two words to a slot, the
    handler driven from its initial state with three frames in a row, each
    [BEGINSPI] followed by [SPIBUFSIZE - 1] words other than [BEGINSPI],
    stores them in slots 0, 1 and 2 in that order, each followed by the
    initial 0 of the slot's last word, and ends with [lastBuffer] at 2, the
    cursor at 1 and [currentBuffer] at 3, past the pool. *)
Theorem X13_three_frames {D : apDefinitions} (f1 f2 f3 : list Z) :
  apDefinitions_ok D → 2 ≤ SPIBUFSIZE →
  Forall (λ f, length f = (Z.to_nat SPIBUFSIZE - 1)%nat ∧
               Forall (λ w, w ≠ BEGINSPI) f) [f1; f2; f3] →
  ∃ s, drive ((BEGINSPI :: f1) ++ (BEGINSPI :: f2) ++ (BEGINSPI :: f3))
         (Ok tt slave_init) = Ok tt s ∧
       slot 0 s = Some (f1 ++ [0]) ∧
       slot 1 s = Some (f2 ++ [0]) ∧
       slot 2 s = Some (f3 ++ [0]) ∧
       lastBuffer s = 2 ∧ currentBuffer s = 3 ∧ spiBufIdx s = 1.
Proof. intros Dok. apply three_frames. Qed.

Lemma X13_witness :
  ∃ s, drive (D:=defs4)
         ((@BEGINSPI defs4 :: [1; 2; 3]) ++ (@BEGINSPI defs4 :: [4; 5; 6])
          ++ (@BEGINSPI defs4 :: [7; 8; 9]))
         (Ok tt (slave_init (D:=defs4))) = Ok tt s ∧
       slot 0 s = Some ([1; 2; 3] ++ [0]) ∧
       slot 1 s = Some ([4; 5; 6] ++ [0]) ∧
       slot 2 s = Some ([7; 8; 9] ++ [0]) ∧
       lastBuffer s = 2 ∧ currentBuffer s = 3 ∧ spiBufIdx s = 1.
Proof.
  apply (X13_three_frames (D:=defs4) [1; 2; 3] [4; 5; 6] [7; 8; 9] defs4_ok).
  - vm_compute. congruence.
  - repeat constructor; vm_compute; congruence.
Defined.


